(** * Sign-language clip pipeline ([app.py]): resolution, fallback, timeline

    A shallow embedding of [resize_frame], [get_gif_frames] and
    [get_frames_endpoint].  The collaborators the program talks to (the HTTP
    client, the GIF decoder, the image library, the float unit) are the
    fields of a record [World]; every call the program makes to the network
    or to standard output is appended to a trace, so that "no request was
    sent" is a statement about that trace. *)

From Stdlib Require Import ZArith QArith Qabs Qround List String Ascii Bool Lia Lqa.
From Stdlib Require Import Permutation.
Import ListNotations.

Local Open Scope string_scope.
Local Open Scope list_scope.
Local Open Scope Z_scope.

(** ** Python values *)

#[local] Set Warnings "-register-all".

(** Exceptions of class [Exception]: the three the program itself can
    provoke, and those raised inside a library. *)
Inductive exn : Type :=
| ZeroDivisionError
| TypeError
| AttributeError
| LibraryError (msg : string).

(** The values a decoded JSON document or a metadata dictionary holds.  A
    [PDict] is searched from the left, so a key is bound to its first
    entry. *)
Inductive pyval : Type :=
| PNone
| PBool (b : bool)
| PInt (z : Z)
| PFloat (q : Q)
| PStr (s : string)
| PList (l : list pyval)
| PDict (d : list (string * pyval)).

Definition dict := list (string * pyval).

(** [bool(v)]: what [not v] tests. *)
Definition py_truthy (v : pyval) : bool :=
  match v with
  | PNone => false
  | PBool b => b
  | PInt z => negb (z =? 0)
  | PFloat q => negb (Qnum q =? 0)
  | PStr s => negb (String.eqb s "")
  | PList l => match l with [] => false | _ => true end
  | PDict d => match d with [] => false | _ => true end
  end.

(** [key in d] together with [d[key]]. *)
Fixpoint dict_find (d : dict) (key : string) : option pyval :=
  match d with
  | [] => None
  | (k, v) :: d' => if String.eqb k key then Some v else dict_find d' key
  end.

(** [d.get(key, default)]. *)
Definition dict_get (d : dict) (key : string) (default : pyval) : pyval :=
  match dict_find d key with
  | Some v => v
  | None => default
  end.

(** ** Strings

    Text is ASCII: a character is an [ascii] below 128.  Bytes from 128 up
    are left alone by [lower] and are not white space. *)

Definition is_upper (c : ascii) : bool :=
  let n := nat_of_ascii c in (Nat.leb 65 n && Nat.leb n 90)%bool.

Definition lower_char (c : ascii) : ascii :=
  if is_upper c then ascii_of_nat (nat_of_ascii c + 32) else c.

(** [s.lower()]. *)
Fixpoint lower (s : string) : string :=
  match s with
  | EmptyString => EmptyString
  | String c s' => String (lower_char c) (lower s')
  end.

(** [c.isspace()]: tab, line feed, vertical tab, form feed, carriage
    return, the four separators 28..31, and the space. *)
Definition is_space (c : ascii) : bool :=
  let n := nat_of_ascii c in
  ((Nat.leb 9 n && Nat.leb n 13) || (Nat.leb 28 n && Nat.leb n 32))%bool.

(** [s.split()] with no argument: maximal runs of non-space characters.
    [cur] is the word being read, reversed. *)
Fixpoint split_aux (s : string) (cur : list ascii) : list string :=
  match s with
  | EmptyString =>
      match cur with
      | [] => []
      | _ => [string_of_list_ascii (rev cur)]
      end
  | String c s' =>
      if is_space c then
        match cur with
        | [] => split_aux s' []
        | _ => string_of_list_ascii (rev cur) :: split_aux s' []
        end
      else split_aux s' (c :: cur)
  end.

Definition split (s : string) : list string := split_aux s [].

(** [for letter in word]: the one-character strings of [word], in order. *)
Fixpoint letters (word : string) : list string :=
  match word with
  | EmptyString => []
  | String c s' => String c EmptyString :: letters s'
  end.

(** ** The outside world *)

Definition bytes := list Byte.byte.

(** A decoded frame, as NumPy holds it: [rows] by [cols] pixels. *)
Record ndarray : Type := { rows : Z; cols : Z; data : bytes }.

(** A PIL image. *)
Record image : Type := { width : Z; height : Z; buf : bytes }.

Definition Image_fromarray (a : ndarray) : image :=
  {| width := cols a; height := rows a; buf := data a |}.

Definition np_array (i : image) : ndarray :=
  {| rows := height i; cols := width i; data := buf i |}.

(** What iterating over a GIF reader does: stop, raise, or hand out a frame
    and go on. *)
Inductive frame_iter : Type :=
| IterStop
| IterRaise (e : exn)
| IterYield (frame : ndarray) (rest : frame_iter).

Record gif_reader : Type := {
  get_meta_data : exn + dict;
  reader_frames : frame_iter
}.

Inductive get_outcome : Type :=
| GetRaises (e : exn)
| GetResponse (status_code : Z) (content : exn + bytes).

Inductive post_outcome : Type :=
| PostRaises (e : exn)
| PostResponse (status_code : Z) (json : exn + pyval).

(** What the program does to the outside, in the order it does it. *)
Inductive event : Type :=
| EvGet (url : string)
| EvPost (url : option string) (body : pyval)
| EvPrint (word : string) (e : exn).

Definition trace := list event.

(** The collaborators.  The network answers a request knowing everything
    that happened before it, so two requests for one address may be
    answered differently.  [rnd] rounds an exact result to the float that
    represents it; the identity gives exact arithmetic. *)
Record World : Type := {
  GIF_BASE_URL : option string;
  TRANSLATE_URL : option string;
  rnd : Q -> Q;
  requests_get : trace -> string -> get_outcome;
  requests_post : trace -> option string -> pyval -> post_outcome;
  imageio_get_reader : bytes -> exn + gif_reader;
  Image_resize : image -> Z -> Z -> exn + image;
  Image_save_jpeg : image -> exn + bytes;
  b64encode : bytes -> string
}.

(** ** Effects: a result or an exception, and a trace threaded through *)

Definition bind_exn {A B : Type} (c : exn + A) (k : A -> exn + B) : exn + B :=
  match c with
  | inl e => inl e
  | inr a => k a
  end.

Definition M (A : Type) : Type := trace -> A * trace.

Definition ret {A : Type} (a : A) : M A := fun tr => (a, tr).

Definition bind {A B : Type} (c : M A) (k : A -> M B) : M B :=
  fun tr => let (a, tr') := c tr in k a tr'.

Definition emit (ev : event) : M unit := fun tr => (tt, tr ++ [ev]).

Definition history : M trace := fun tr => (tr, tr).

Declare Scope py_scope.
Delimit Scope py_scope with py.
Notation "x <- c ;; k" := (bind c (fun x => k))
  (at level 61, c at next level, right associativity) : py_scope.
Notation "c ;; k" := (bind c (fun _ => k))
  (at level 61, right associativity) : py_scope.
Notation "' pat <- c ;; k" :=
  (bind c (fun x => match x with pat => k end))
  (at level 61, pat pattern, c at next level, right associativity) : py_scope.
Notation "'try' x <- c 'in' k" := (bind_exn c (fun x => k))
  (at level 61, x name, c at next level, right associativity) : py_scope.

Section Program.

Variable w : World.

(** ** Float arithmetic *)

Definition fadd (a b : Q) : Q := rnd w (a + b).
Definition fmul (a b : Q) : Q := rnd w (a * b).
Definition fdiv (a b : Q) : Q := rnd w (a / b).

(** [int(x)]: truncation toward zero. *)
Definition py_int (x : Q) : Z := Z.quot (Qnum x) (Zpos (Qden x)).

(** [sum(l)]: left to right, from 0. *)
Definition py_sum (l : list Q) : Q := fold_left fadd l 0%Q.

(** [v / 1000.0]; a [bool] is an [int]. *)
Definition truediv_1000 (v : pyval) : exn + Q :=
  match v with
  | PBool b => inr (fdiv (inject_Z (if b then 1 else 0)) 1000)
  | PInt z => inr (fdiv (inject_Z z) 1000)
  | PFloat q => inr (fdiv q 1000)
  | _ => inl TypeError
  end.

(** ** [resize_frame] *)

Definition resize_frame (frame : ndarray) (target_height : Z) : exn + ndarray :=
  (let img := Image_fromarray frame in
   try aspect_ratio <-
     (if height img =? 0 then inl ZeroDivisionError
      else inr (fdiv (inject_Z (width img)) (inject_Z (height img)))) in
   let new_width := py_int (fmul (inject_Z target_height) aspect_ratio) in
   try resized <- Image_resize w img new_width target_height in
   inr (np_array resized))%py.

(** ** [get_gif_frames] *)

(** One turn of [for frame in gif_reader], up to the two [append]s: resize,
    save as JPEG, encode in base64. *)
Definition encode_frame (frame : ndarray) : exn + string :=
  (try resized_frame <- resize_frame frame 480 in
   try buffered <- Image_save_jpeg w (Image_fromarray resized_frame) in
   inr (b64encode w buffered))%py.

(** The loop over the frames.  [frames] and [durations] are the two lists
    the function appends to; the third component is the exception that broke
    the loop, if one did. *)
Fixpoint frame_loop (it : frame_iter) (frame_duration : Q)
    (frames : list string) (durations : list Q)
  : list string * list Q * option exn :=
  match it with
  | IterStop => (frames, durations, None)
  | IterRaise e => (frames, durations, Some e)
  | IterYield frame rest =>
      match encode_frame frame with
      | inl e => (frames, durations, Some e)
      | inr jpeg =>
          frame_loop rest frame_duration
            (frames ++ [jpeg]) (durations ++ [frame_duration])
      end
  end.

(** From the response body to the start of the loop: the reader, its
    metadata, the duration of one frame in seconds. *)
Definition open_gif (content : exn + bytes) : exn + (frame_iter * Q) :=
  (try body <- content in
   try gif_reader <- imageio_get_reader w body in
   try meta_data <- get_meta_data gif_reader in
   try frame_duration <-
     truediv_1000 (dict_get meta_data "duration" (PInt 100)) in
   inr (reader_frames gif_reader, frame_duration))%py.

(** The [try] block once [requests.get] has answered or raised. *)
Definition try_block (response : get_outcome)
  : list string * list Q * option exn :=
  match response with
  | GetRaises e => ([], [], Some e)
  | GetResponse status_code content =>
      if status_code =? 200 then
        match open_gif content with
        | inl e => ([], [], Some e)
        | inr (it, frame_duration) => frame_loop it frame_duration [] []
        end
      else ([], [], None)
  end.

(** [f"{GIF_BASE_URL}/{word}.gif"]; an unset variable prints as [None]. *)
Definition gif_url (word : string) : string :=
  ((match GIF_BASE_URL w with Some base => base | None => "None" end)
     ++ "/" ++ word ++ ".gif")%string.

(** The exception the [except] clause catches, if any. *)
Definition caught (word : string) (tr : trace) : option exn :=
  snd (try_block (requests_get w tr (gif_url word))).

Definition get_gif_frames (word : string) : M (list string * list Q) :=
  (tr <- history ;;
   emit (EvGet (gif_url word)) ;;
   let '(frames, durations, raised) :=
     try_block (requests_get w tr (gif_url word)) in
   match raised with
   | Some e => emit (EvPrint word e) ;; ret (frames, durations)
   | None => ret (frames, durations)
   end)%py.

(** ** [get_frames_endpoint] *)

Record word_entry : Type := {
  word : string;
  frames : list string;
  durations : list Q
}.

Record timeline : Type := {
  original_text : pyval;
  sign_grammar : pyval;
  all_frames : list word_entry;
  total_duration : Q
}.

(** How a request ends: the dictionary is returned, an [HTTPException] is
    raised, or another exception escapes the handler. *)
Inductive outcome : Type :=
| Returned (t : timeline)
| HTTPException (status_code : Z) (detail : string)
| Unhandled (e : exn).

(** [for letter in word], with the two lists it extends. *)
Fixpoint letter_loop (ls : list string)
    (word_frames : list string) (word_durations : list Q)
  : M (list string * list Q) :=
  match ls with
  | [] => ret (word_frames, word_durations)
  | letter :: rest =>
      (' (letter_frames, letter_durations) <- get_gif_frames letter ;;
       match letter_frames with
       | [] => letter_loop rest word_frames word_durations
       | _ :: _ =>
           letter_loop rest (word_frames ++ letter_frames)
             (word_durations ++ letter_durations)
       end)%py
  end.

(** The first half of the body of [for word in words]: the frames and
    durations the word ends up with. *)
Definition resolve_word (word : string) : M (list string * list Q) :=
  (' (frames, durations) <- get_gif_frames word ;;
   match frames with
   | [] => letter_loop (letters word) [] []
   | _ :: _ => ret (frames, durations)
   end)%py.

(** [for word in words], with [all_frames] and [total_duration]. *)
Fixpoint word_loop (words : list string)
    (all_frames : list word_entry) (total_duration : Q)
  : M (list word_entry * Q) :=
  match words with
  | [] => ret (all_frames, total_duration)
  | word :: rest =>
      (' (frames, durations) <- resolve_word word ;;
       word_loop rest
         (all_frames
            ++ [{| word := word; frames := frames; durations := durations |}])
         (fadd total_duration (py_sum durations)))%py
  end.

Definition get_frames_endpoint (request_data : dict) : M outcome :=
  (let original_text := dict_get request_data "text" (PStr "") in
   if negb (py_truthy original_text) then
     ret (HTTPException 400 "Text cannot be empty")
   else
     let payload := PDict [("text", original_text)] in
     tr <- history ;;
     emit (EvPost (TRANSLATE_URL w) payload) ;;
     match requests_post w tr (TRANSLATE_URL w) payload with
     | PostRaises e => ret (Unhandled e)
     | PostResponse status_code json =>
         if negb (status_code =? 200) then
           ret (HTTPException status_code "Translation API failed")
         else
           match json with
           | inl e => ret (Unhandled e)
           | inr (PDict translate_data) =>
               let sign_grammar :=
                 dict_get translate_data "sign_grammar" (PStr "") in
               if negb (py_truthy sign_grammar) then
                 ret (HTTPException 400 "No sign grammar returned")
               else
                 match sign_grammar with
                 | PStr s =>
                     let words := split (lower s) in
                     ' (all_frames, total_duration) <- word_loop words [] 0%Q ;;
                     ret (Returned
                            {| original_text := original_text;
                               sign_grammar := sign_grammar;
                               all_frames := all_frames;
                               total_duration := total_duration |})
                 | _ => ret (Unhandled AttributeError)
                 end
           | inr _ => ret (Unhandled AttributeError)
           end
     end)%py.

End Program.

(** ** The resolution policy in the words of the specification

    These are compared below with the loops of [get_frames_endpoint]. *)

Section Reference.

Variable w : World.

Definition clip : Type := (list string * list Q)%type.

Definition clip_is_empty (c : clip) : bool :=
  match fst c with [] => true | _ :: _ => false end.

Definition clip_nonempty (c : clip) : bool := negb (clip_is_empty c).

(** Fetch one clip per token, in order. *)
Fixpoint fetch_each (tokens : list string) : M (list clip) :=
  match tokens with
  | [] => ret []
  | t :: rest =>
      (c <- get_gif_frames w t ;;
       cs <- fetch_each rest ;;
       ret (c :: cs))%py
  end.

(** Frames after frames, durations after durations. *)
Definition concat_clips (cs : list clip) : clip :=
  (List.concat (map fst cs), List.concat (map snd cs)).

(** WordResolver: the whole-token clip when there is one, else the
    non-empty letter clips one after the other. *)
Definition resolve (t : string) : M clip :=
  (c <- get_gif_frames w t ;;
   if clip_is_empty c then
     cs <- fetch_each (letters t) ;;
     ret (concat_clips (filter clip_nonempty cs))
   else ret c)%py.

(** The frames that are encoded before the first failure, whether the
    reader or the encoding of a frame fails. *)
Fixpoint encoded_prefix (it : frame_iter) : list string :=
  match it with
  | IterYield frame rest =>
      match encode_frame w frame with
      | inr jpeg => jpeg :: encoded_prefix rest
      | inl _ => []
      end
  | _ => []
  end.

End Reference.

(** The exact sum of a list of durations. *)
Definition Qsum (l : list Q) : Q := fold_right Qplus 0%Q l.

(** The unit roundoff of binary64, 2^-53. *)
Definition unit_roundoff : Q := 1 # 9007199254740992.

(** [rnd] is within the unit roundoff of the exact result, relatively. *)
Definition rounds_to_nearest (w : World) : Prop :=
  forall x : Q, (Qabs (rnd w x - x) <= unit_roundoff * Qabs x)%Q.


(** ** A small world to run the program in *)

Module Demo.

Definition frame_320x240 : ndarray :=
  {| rows := 240; cols := 320; data := [Byte.x2a] |}.

Definition frame_100x100 : ndarray :=
  {| rows := 100; cols := 100; data := [Byte.x07] |}.

(** The store has [hello.gif], [cut.gif] (which breaks after its first
    frame) and the letters of "world". *)
Definition store (tr : trace) (url : string) : get_outcome :=
  if String.eqb url "http://clips/hello.gif" then
    GetResponse 200 (inr [Byte.x01])
  else if String.eqb url "http://clips/cut.gif" then
    GetResponse 200 (inr [Byte.x03])
  else if existsb (String.eqb url)
            ["http://clips/w.gif"; "http://clips/o.gif"; "http://clips/r.gif";
             "http://clips/l.gif"; "http://clips/d.gif"] then
    GetResponse 200 (inr [Byte.x02])
  else if String.eqb url "http://clips/offline.gif" then
    GetRaises (LibraryError "connection refused")
  else GetResponse 404 (inr []).

Definition decoder (body : bytes) : exn + gif_reader :=
  match body with
  | [Byte.x01] =>
      inr {| get_meta_data := inr [("duration", PInt 40)];
             reader_frames :=
               IterYield frame_320x240 (IterYield frame_320x240 IterStop) |}
  | [Byte.x02] =>
      inr {| get_meta_data := inr [];
             reader_frames := IterYield frame_100x100 IterStop |}
  | [Byte.x03] =>
      inr {| get_meta_data := inr [("duration", PInt 40)];
             reader_frames :=
               IterYield frame_320x240
                 (IterRaise (LibraryError "image file is truncated")) |}
  | _ => inl (LibraryError "not a GIF")
  end.

Definition translator (tr : trace) (url : option string) (body : pyval)
  : post_outcome :=
  match body with
  | PDict [(_, PStr text)] =>
      if String.eqb text "down" then
        PostResponse 503 (inl (LibraryError "no body"))
      else if String.eqb text "mute" then PostResponse 200 (inr (PDict []))
      else if String.eqb text "blank" then
        PostResponse 200 (inr (PDict [("sign_grammar", PStr "  ")]))
      else if String.eqb text "hello" then
        PostResponse 200 (inr (PDict [("sign_grammar", PStr "HELLO WORLD")]))
      else PostResponse 200 (inr (PDict [("sign_grammar", PStr text)]))
  | _ => PostRaises (LibraryError "not serialisable")
  end.

(** The resize of the image library: it raises when asked for a width or
    a height below 1, and otherwise returns an image of the size asked
    for. *)
Definition resizer (img : image) (new_width new_height : Z) : exn + image :=
  if ((new_width <? 1) || (new_height <? 1))%bool then
    inl (LibraryError "height and width must be > 0")
  else inr {| width := new_width; height := new_height; buf := buf img |}.

Definition world : World :=
  {| GIF_BASE_URL := Some "http://clips";
     TRANSLATE_URL := Some "http://translate";
     rnd := fun x => x;
     requests_get := store;
     requests_post := translator;
     imageio_get_reader := decoder;
     Image_resize := resizer;
     Image_save_jpeg := fun img => inr (buf img);
     b64encode := fun b => match b with [Byte.x2a] => "Kg==" | _ => "Bw==" end |}.

(** What the request [{"text": "hello"}] is answered with, and what it
    does on the way. *)
Definition hello_timeline : timeline :=
  {| original_text := PStr "hello";
     sign_grammar := PStr "HELLO WORLD";
     all_frames :=
       [{| word := "hello";
           frames := ["Kg=="; "Kg=="];
           durations := [inject_Z 40 / 1000; inject_Z 40 / 1000]%Q |};
        {| word := "world";
           frames := ["Bw=="; "Bw=="; "Bw=="; "Bw=="; "Bw=="];
           durations := repeat (inject_Z 100 / 1000)%Q 5 |}];
     total_duration :=
       (0 + (0 + inject_Z 40 / 1000 + inject_Z 40 / 1000)
        + (0 + inject_Z 100 / 1000 + inject_Z 100 / 1000
           + inject_Z 100 / 1000 + inject_Z 100 / 1000
           + inject_Z 100 / 1000))%Q |}.

Definition hello_trace : trace :=
  [EvPost (Some "http://translate") (PDict [("text", PStr "hello")]);
   EvGet "http://clips/hello.gif";
   EvGet "http://clips/world.gif";
   EvGet "http://clips/w.gif"; EvGet "http://clips/o.gif";
   EvGet "http://clips/r.gif"; EvGet "http://clips/l.gif";
   EvGet "http://clips/d.gif"].

End Demo.

(** ** Reading a trace *)

Definition is_post (ev : event) : bool :=
  match ev with EvPost _ _ => true | _ => false end.

Definition is_print (ev : event) : bool :=
  match ev with EvPrint _ _ => true | _ => false end.

(** The addresses of the GET requests of a trace, oldest first. *)
Fixpoint get_urls (tr : trace) : list string :=
  match tr with
  | [] => []
  | EvGet url :: tr' => url :: get_urls tr'
  | _ :: tr' => get_urls tr'
  end.

(** The frames a reader hands out before it stops or raises. *)
Fixpoint iter_frames (it : frame_iter) : list ndarray :=
  match it with
  | IterYield frame rest => frame :: iter_frames rest
  | _ => []
  end.

(** ** A store that answers an address the same way every time *)

Definition stable_store (w : World) : Prop :=
  forall tr tr' url, requests_get w tr url = requests_get w tr' url.

Section Stable.

Variable w : World.

(** The clip of a token when the store is asked with no history. *)
Definition fetch_pure (word : string) : clip :=
  fst (try_block w (requests_get w [] (gif_url w word))).

(** The word loop's resolution, over [fetch_pure]. *)
Definition resolve_pure (t : string) : clip :=
  if clip_is_empty (fetch_pure t) then
    concat_clips (filter clip_nonempty (map fetch_pure (letters t)))
  else fetch_pure t.

Definition entry_pure (t : string) : word_entry :=
  {| word := t;
     frames := fst (resolve_pure t);
     durations := snd (resolve_pure t) |}.

End Stable.

(** ** Shapes of tokens *)

Definition no_space (t : string) : Prop :=
  Forall (fun c => is_space c = false) (list_ascii_of_string t).

Definition no_upper (t : string) : Prop :=
  Forall (fun c => is_upper c = false) (list_ascii_of_string t).

(** [" ".join(ws)]. *)
Fixpoint join_spaces (ws : list string) : string :=
  match ws with
  | [] => ""
  | [t] => t
  | t :: ws' => (t ++ " " ++ join_spaces ws')%string
  end.

(** ** A translation service that answers out of contract *)

Module Odd.

Definition translator (tr : trace) (url : option string) (body : pyval)
  : post_outcome :=
  match body with
  | PDict [(_, PStr text)] =>
      if String.eqb text "list" then
        PostResponse 200 (inr (PList [PStr "HELLO"]))
      else if String.eqb text "number" then
        PostResponse 200 (inr (PDict [("sign_grammar", PInt 7)]))
      else if String.eqb text "html" then
        PostResponse 200 (inl (LibraryError "Expecting value"))
      else PostRaises (LibraryError "connection refused")
  | _ => PostRaises (LibraryError "not serialisable")
  end.

Definition world : World :=
  {| GIF_BASE_URL := Some "http://clips";
     TRANSLATE_URL := Some "http://translate";
     rnd := fun x => x;
     requests_get := Demo.store;
     requests_post := translator;
     imageio_get_reader := Demo.decoder;
     Image_resize := Demo.resizer;
     Image_save_jpeg := fun img => inr (buf img);
     b64encode := fun b => match b with [Byte.x2a] => "Kg==" | _ => "Bw==" end |}.

End Odd.

(** ** Rounding errors that add up *)

(** (1 + u)^n for the unit roundoff u: the factor by which n roundings in
    a row can stretch a value. *)
Fixpoint growth (n : nat) : Q :=
  match n with
  | O => 1
  | S n' => (1 + unit_roundoff) * growth n'
  end.

(** The sum of the absolute values. *)
Definition Qsum_abs (l : list Q) : Q := Qsum (map Qabs l).

(** ** What the image library does with a size *)



(** ** A world whose floats are binary64

    Rounding to the nearest number with a 53-bit significand, ties to the
    even one; the exponent is not bounded, so nothing overflows. *)

Module Float.

(** The nearest integer, ties to even. *)
Definition round_half_even (x : Q) : Z :=
  let f := Qfloor x in
  match (x - inject_Z f ?= 1 # 2)%Q with
  | Lt => f
  | Gt => f + 1
  | Eq => if Z.even f then f else f + 1
  end.

(** 2^e, for an exponent of either sign. *)
Definition pow2 (e : Z) : Q :=
  if 0 <=? e then inject_Z (2 ^ e) else 1 # Z.to_pos (2 ^ (- e)).

(** [x] rounded to a multiple of 2^e, when x / 2^e is at least 2^52. *)
Definition round_at (e : Z) (x : Q) : option Q :=
  let y := (x / pow2 e)%Q in
  if Qle_bool 4503599627370496 y then
    Some (inject_Z (round_half_even y) * pow2 e)%Q
  else None.

(** The exponent is within one of the difference of the binary logarithms
    of numerator and denominator; the test of [round_at] tells which. *)
Definition round53_pos (x : Q) : Q :=
  let k := Z.log2 (Qnum x) - Z.log2 (Zpos (Qden x)) in
  match round_at (k - 52) x with
  | Some r => r
  | None =>
      match round_at (k - 53) x with
      | Some r => r
      | None => x
      end
  end.

Definition round53 (x : Q) : Q :=
  if Qeq_bool x 0 then 0%Q
  else if Qle_bool 0 x then round53_pos x
  else (- round53_pos (- x))%Q.

Definition world : World :=
  {| GIF_BASE_URL := Some "http://clips";
     TRANSLATE_URL := Some "http://translate";
     rnd := round53;
     requests_get := Demo.store;
     requests_post := Demo.translator;
     imageio_get_reader := Demo.decoder;
     Image_resize := Demo.resizer;
     Image_save_jpeg := fun img => inr (buf img);
     b64encode := fun b => match b with [Byte.x2a] => "Kg==" | _ => "Bw==" end |}.

(** The request [{"text": "hello"}] in this world. *)
Definition hello_run : outcome * trace :=
  Eval vm_compute in get_frames_endpoint world [("text", PStr "hello")] [].

Definition hello_timeline : timeline :=
  Eval vm_compute in
    match fst hello_run with
    | Returned tl => tl
    | _ => Demo.hello_timeline
    end.

End Float.

(** * Properties *)

Example split_hello_world :
  split (lower "HELLO  World ") = ["hello"; "world"].
Proof. reflexivity. Qed.

Example letters_world : letters "world" = ["w"; "o"; "r"; "l"; "d"].
Proof. reflexivity. Qed.

Example demo_hello :
  get_gif_frames Demo.world "hello" [] =
  ((["Kg=="; "Kg=="], [inject_Z 40 / 1000; inject_Z 40 / 1000]%Q),
   [EvGet "http://clips/hello.gif"]).
Proof. reflexivity. Qed.

Section FetchProperties.

Variable w : World.

(** The loop appends, to both lists at once, one entry per frame encoded
    before the first failure. *)
Lemma frame_loop_appends (it : frame_iter) (fd : Q) :
  forall fs ds,
    fst (frame_loop w it fd fs ds) =
    (fs ++ encoded_prefix w it,
     ds ++ repeat fd (List.length (encoded_prefix w it))).
Proof.
  induction it as [| e | frame rest IH]; intros fs ds; simpl.
  - now rewrite !app_nil_r.
  - now rewrite !app_nil_r.
  - destruct (encode_frame w frame) as [e | jpeg]; simpl.
    + now rewrite !app_nil_r.
    + rewrite IH, <- !app_assoc. reflexivity.
Qed.

(** What the [try] block leaves in [frames] and [durations]. *)
Lemma try_block_clip (response : get_outcome) :
  fst (try_block w response) =
  match response with
  | GetRaises _ => ([], [])
  | GetResponse status_code content =>
      if status_code =? 200 then
        match open_gif w content with
        | inl _ => ([], [])
        | inr (it, fd) =>
            (encoded_prefix w it,
             repeat fd (List.length (encoded_prefix w it)))
        end
      else ([], [])
  end.
Proof.
  destruct response as [e | status_code content]; simpl; [reflexivity |].
  destruct (status_code =? 200); [| reflexivity].
  destruct (open_gif w content) as [e | [it fd]]; [reflexivity |].
  apply frame_loop_appends.
Qed.

(** [get_gif_frames] sends one GET, prints at most one line, and returns
    what the [try] block left in the two lists. *)
Lemma get_gif_frames_unfold (word : string) (tr : trace) :
  get_gif_frames w word tr =
  (fst (try_block w (requests_get w tr (gif_url w word))),
   tr ++ EvGet (gif_url w word)
      :: match caught w word tr with
         | Some e => [EvPrint word e]
         | None => []
         end).
Proof.
  unfold get_gif_frames, caught, bind, history, emit, ret.
  destruct (try_block w (requests_get w tr (gif_url w word)))
    as [[fs ds] [e |]]; simpl.
  - now rewrite <- app_assoc.
  - reflexivity.
Qed.

Lemma get_gif_frames_lengths (word : string) (tr : trace) :
  List.length (fst (fst (get_gif_frames w word tr))) =
  List.length (snd (fst (get_gif_frames w word tr))).
Proof.
  rewrite get_gif_frames_unfold. cbn [fst snd]. rewrite try_block_clip.
  destruct (requests_get w tr (gif_url w word)) as [e | status_code content];
    [reflexivity |].
  destruct (status_code =? 200); [| reflexivity].
  destruct (open_gif w content) as [e | [it fd]]; [reflexivity |].
  cbn [fst snd]. now rewrite repeat_length.
Qed.

(** C1 (as amended).  [get_gif_frames] always returns a pair of lists.  The
    pair is empty when the request raises, when the status is not 200, and
    when reading the body, opening the container or reading its duration
    raises.  Once the loop over the frames has begun, the pair holds the
    frames encoded before the first failure, each with the clip's one
    duration. *)
Theorem get_gif_frames_never_raises (word : string) (tr : trace) :
  exists frames durations tr',
    get_gif_frames w word tr = ((frames, durations), tr')
    /\ match requests_get w tr (gif_url w word) with
       | GetRaises _ => frames = [] /\ durations = []
       | GetResponse status_code content =>
           if status_code =? 200 then
             match open_gif w content with
             | inl _ => frames = [] /\ durations = []
             | inr (it, fd) =>
                 frames = encoded_prefix w it
                 /\ durations = repeat fd (List.length frames)
             end
           else frames = [] /\ durations = []
       end.
Proof.
  pose proof (try_block_clip (requests_get w tr (gif_url w word))) as Hclip.
  rewrite get_gif_frames_unfold.
  destruct (try_block w (requests_get w tr (gif_url w word)))
    as [[fs ds] raised].
  cbn [fst] in *. eexists fs, ds, _. split; [reflexivity |].
  destruct (requests_get w tr (gif_url w word)) as [e | status_code content].
  - now inversion Hclip.
  - destruct (status_code =? 200); [| now inversion Hclip].
    destruct (open_gif w content) as [e | [it fd]]; now inversion Hclip.
Qed.

End FetchProperties.

(** C1 (as stated) fails: [cut.gif] breaks after its first frame, the
    exception is caught, and the frame already encoded is returned. *)
Lemma get_gif_frames_keeps_partial_clip :
  caught Demo.world "cut" [] = Some (LibraryError "image file is truncated")
  /\ fst (get_gif_frames Demo.world "cut" []) =
     (["Kg=="], [inject_Z 40 / 1000]%Q)
  /\ fst (get_gif_frames Demo.world "cut" []) <> ([], []).
Proof.
  split; [reflexivity | split; [reflexivity | discriminate]].
Qed.

Section ResolveProperties.

Variable w : World.

(** The letter loop extends its two lists by the non-empty letter clips,
    in the order of the letters. *)
Lemma letter_loop_fetch_each (ls : list string) :
  forall word_frames word_durations tr,
    letter_loop w ls word_frames word_durations tr =
    (let (cs, tr') := fetch_each w ls tr in
     ((word_frames ++ fst (concat_clips (filter clip_nonempty cs)),
       word_durations ++ snd (concat_clips (filter clip_nonempty cs))), tr')).
Proof.
  induction ls as [| letter rest IH]; intros wf wd tr;
    cbn [letter_loop fetch_each].
  - unfold ret. cbn. now rewrite !app_nil_r.
  - unfold bind, ret.
    destruct (get_gif_frames w letter tr) as [[lf ld] tr1].
    destruct lf as [| f lf]; rewrite IH;
      destruct (fetch_each w rest tr1) as [cs tr2]; cbn.
    + reflexivity.
    + now rewrite <- !app_assoc.
Qed.

(** The loop body of the endpoint is the resolver of the specification. *)
Lemma resolve_word_is_resolve (t : string) (tr : trace) :
  resolve_word w t tr = resolve w t tr.
Proof.
  unfold resolve_word, resolve, bind.
  destruct (get_gif_frames w t tr) as [[fs ds] tr1].
  destruct fs as [| f fs]; cbn [clip_is_empty fst].
  - rewrite letter_loop_fetch_each.
    destruct (fetch_each w (letters t) tr1) as [cs tr2]. reflexivity.
  - reflexivity.
Qed.

(** C2.  When the clip fetched for the token has frames, the token
    resolves to that clip and nothing else is fetched; when it has none,
    the token resolves to the clips fetched for its letters, left to right,
    one after the other, the empty ones left out. *)
Theorem resolve_word_fallback (t : string) (tr : trace) (c : clip)
    (tr1 : trace) :
  get_gif_frames w t tr = (c, tr1) ->
  (clip_is_empty c = false -> resolve_word w t tr = (c, tr1))
  /\ (clip_is_empty c = true ->
      forall cs tr2,
        fetch_each w (letters t) tr1 = (cs, tr2) ->
        resolve_word w t tr = (concat_clips (filter clip_nonempty cs), tr2)).
Proof.
  intros Hfetch. unfold resolve_word, bind. rewrite Hfetch.
  destruct c as [fs ds]. unfold clip_is_empty. cbn [fst].
  split; intros Hempty.
  - destruct fs; [discriminate | reflexivity].
  - intros cs tr2 Hletters. destruct fs; [| discriminate].
    rewrite letter_loop_fetch_each, Hletters. reflexivity.
Qed.

Lemma concat_clips_lengths (cs : list clip) :
  Forall (fun c => List.length (fst c) = List.length (snd c)) cs ->
  List.length (fst (concat_clips cs)) = List.length (snd (concat_clips cs)).
Proof.
  induction 1 as [| c cs Hc _ IH]; [reflexivity |].
  unfold concat_clips in *. cbn [fst snd map List.concat] in *.
  rewrite !length_app. congruence.
Qed.

Lemma fetch_each_lengths (ts : list string) :
  forall tr,
    Forall (fun c => List.length (fst c) = List.length (snd c))
      (fst (fetch_each w ts tr)).
Proof.
  induction ts as [| t rest IH]; intros tr; simpl.
  - constructor.
  - unfold bind, ret.
    pose proof (get_gif_frames_lengths w t tr) as Hlen.
    destruct (get_gif_frames w t tr) as [c tr1].
    specialize (IH tr1). destruct (fetch_each w rest tr1) as [cs tr2].
    constructor; assumption.
Qed.

Lemma resolve_word_lengths (t : string) (tr : trace) :
  List.length (fst (fst (resolve_word w t tr))) =
  List.length (snd (fst (resolve_word w t tr))).
Proof.
  rewrite resolve_word_is_resolve. unfold resolve, bind, ret.
  pose proof (get_gif_frames_lengths w t tr) as Hlen.
  destruct (get_gif_frames w t tr) as [c tr1].
  destruct (clip_is_empty c); [| exact Hlen].
  pose proof (fetch_each_lengths (letters t) tr1) as Hall.
  destruct (fetch_each w (letters t) tr1) as [cs tr2].
  cbn [fst] in *. apply concat_clips_lengths.
  apply Forall_forall. intros c' Hin. apply filter_In in Hin.
  rewrite Forall_forall in Hall. apply Hall, Hin.
Qed.

(** What the word loop does to [all_frames] and [total_duration]: one entry
    per word, in order, and the float sum of each entry's durations added
    to the total, in the same order. *)
Lemma word_loop_entries (words : list string) :
  forall acc total tr,
  exists entries,
    fst (word_loop w words acc total tr) =
    (acc ++ entries,
     fold_left (fadd w) (map (fun e => py_sum w (durations e)) entries) total)
    /\ map word entries = words
    /\ Forall (fun e => List.length (frames e) = List.length (durations e))
         entries.
Proof.
  induction words as [| t rest IH]; intros acc total tr; simpl.
  - exists []. now rewrite app_nil_r.
  - unfold bind at 1.
    pose proof (resolve_word_lengths t tr) as Hlen.
    destruct (resolve_word w t tr) as [[fs ds] tr1]. cbn [fst snd] in Hlen.
    destruct (IH (acc ++ [{| word := t; frames := fs; durations := ds |}])
                 (fadd w total (py_sum w ds)) tr1)
      as (entries & Heq & Hwords & Hall).
    exists ({| word := t; frames := fs; durations := ds |} :: entries).
    rewrite Heq, <- app_assoc. cbn. repeat split.
    + now rewrite Hwords.
    + constructor; assumption.
Qed.

End ResolveProperties.

Section TimelineProperties.

Variable w : World.

(** A request that is answered with a timeline went through a string
    grammar, and the timeline is what the word loop built from its words. *)
Lemma get_frames_endpoint_returned (request_data : dict) (tr tr' : trace)
    (tl : timeline) :
  get_frames_endpoint w request_data tr = (Returned tl, tr') ->
  exists s,
    sign_grammar tl = PStr s
    /\ original_text tl = dict_get request_data "text" (PStr "")
    /\ map word (all_frames tl) = split (lower s)
    /\ Forall (fun e => List.length (frames e) = List.length (durations e))
         (all_frames tl)
    /\ total_duration tl =
       fold_left (fadd w)
         (map (fun e => py_sum w (durations e)) (all_frames tl)) 0%Q.
Proof.
  unfold get_frames_endpoint, bind, history, emit, ret.
  destruct (py_truthy (dict_get request_data "text" (PStr ""))); cbn [negb];
    [| discriminate].
  destruct (requests_post w tr _ _) as [e | status_code json];
    [discriminate |].
  destruct (status_code =? 200); cbn [negb]; [| discriminate].
  destruct json as [e | [| | | | | | translate_data]]; try discriminate.
  destruct (py_truthy (dict_get translate_data "sign_grammar" (PStr "")));
    cbn [negb]; [| discriminate].
  destruct (dict_get translate_data "sign_grammar" (PStr ""))
    as [| | | | s | |]; try discriminate.
  destruct (word_loop_entries w (split (lower s)) [] 0%Q
              (tr ++ [EvPost (TRANSLATE_URL w)
                        (PDict [("text",
                                 dict_get request_data "text" (PStr ""))])]))
    as (entries & Heq & Hwords & Hall).
  destruct (word_loop w (split (lower s)) [] 0%Q _) as [[af total] tr2].
  cbn [fst app] in Heq. inversion Heq; subst af total.
  intros Hret. inversion Hret; subst. cbn.
  exists s. repeat split; assumption.
Qed.

(** C4.  The two lists [get_gif_frames] returns have one length, whatever
    the request, the decoder and the encoder did; so have the two lists a
    word resolves to, and those of every entry of a returned timeline. *)
Theorem frames_and_durations_agree :
  (forall word tr,
     List.length (fst (fst (get_gif_frames w word tr))) =
     List.length (snd (fst (get_gif_frames w word tr))))
  /\ (forall t tr,
        List.length (fst (fst (resolve_word w t tr))) =
        List.length (snd (fst (resolve_word w t tr))))
  /\ (forall request_data tr,
        match fst (get_frames_endpoint w request_data tr) with
        | Returned tl =>
            Forall
              (fun e => List.length (frames e) = List.length (durations e))
              (all_frames tl)
        | _ => True
        end).
Proof.
  split; [apply get_gif_frames_lengths |].
  split; [apply resolve_word_lengths |].
  intros request_data tr.
  destruct (get_frames_endpoint w request_data tr) as [[tl | |] tr'] eqn:Hrun;
    cbn [fst]; try exact I.
  apply get_frames_endpoint_returned in Hrun.
  destruct Hrun as (s & _ & _ & _ & Hall & _). exact Hall.
Qed.

End TimelineProperties.

(** ** Exact sums *)

Lemma Qsum_app (l1 l2 : list Q) : (Qsum (l1 ++ l2) == Qsum l1 + Qsum l2)%Q.
Proof.
  induction l1 as [| x l1 IH]; simpl.
  - ring.
  - rewrite IH. ring.
Qed.

Lemma Qsum_permutation (l l' : list Q) :
  Permutation l l' -> (Qsum l == Qsum l')%Q.
Proof.
  induction 1 as [| x l l' _ IH | x y l | l l' l'' _ IH1 _ IH2]; simpl.
  - reflexivity.
  - rewrite IH. reflexivity.
  - ring.
  - rewrite IH1. exact IH2.
Qed.

Section ResizeProperties.

Variable w : World.
Hypothesis rnd_nearest : rounds_to_nearest w.

Lemma py_int_floor (x : Q) : (0 <= x)%Q -> py_int x = Qfloor x.
Proof.
  destruct x as [n d]. unfold py_int, Qfloor, Qle. cbn.
  intros Hn. apply Z.quot_div_nonneg; lia.
Qed.

(** The aspect ratio of a frame with a positive height lies between 0 and
    the width. *)
Lemma aspect_ratio_bounds (W H : Z) :
  0 <= W -> 0 < H ->
  (0 <= inject_Z W / inject_Z H <= inject_Z W)%Q.
Proof.
  intros HW HH.
  assert (HHq : (0 < inject_Z H)%Q).
  { change (inject_Z 0 < inject_Z H)%Q. rewrite <- Zlt_Qlt. exact HH. }
  split.
  - apply Qle_shift_div_l; [exact HHq |].
    rewrite Qmult_0_l. change (inject_Z 0 <= inject_Z W)%Q.
    rewrite <- Zle_Qle. exact HW.
  - apply Qle_shift_div_r; [exact HHq |].
    rewrite <- inject_Z_mult, <- Zle_Qle. nia.
Qed.


End ResizeProperties.

Section DurationProperties.

Variable w : World.

(** C8.  When the store answers 200 and the container opens, the frame
    duration is the metadata's [duration] divided by 1000, with 100 taken
    for a missing entry (so 0.1 s), and the durations returned are that one
    value, once per frame returned. *)
Theorem uniform_frame_duration (word : string) (tr : trace) (body : bytes)
    (reader : gif_reader) (meta_data : dict) (fd : Q) :
  requests_get w tr (gif_url w word) = GetResponse 200 (inr body) ->
  imageio_get_reader w body = inr reader ->
  get_meta_data reader = inr meta_data ->
  truediv_1000 w (dict_get meta_data "duration" (PInt 100)) = inr fd ->
  snd (fst (get_gif_frames w word tr)) =
    repeat fd (List.length (fst (fst (get_gif_frames w word tr))))
  /\ (dict_find meta_data "duration" = None ->
      fd = rnd w (inject_Z 100 / 1000) /\ (inject_Z 100 / 1000 == 1 # 10)%Q)
  /\ (forall ms, dict_find meta_data "duration" = Some (PInt ms) ->
      fd = rnd w (inject_Z ms / 1000))
  /\ (forall ms, dict_find meta_data "duration" = Some (PFloat ms) ->
      fd = rnd w (ms / 1000)).
Proof.
  intros Hget Hreader Hmeta Hfd. split.
  - rewrite get_gif_frames_unfold. cbn [fst snd].
    rewrite try_block_clip, Hget. cbn.
    rewrite Hreader. cbn. rewrite Hmeta. cbn. rewrite Hfd. reflexivity.
  - unfold dict_get in Hfd. split; [| split].
    + intros Habsent. rewrite Habsent in Hfd.
      cbv [truediv_1000 fdiv] in Hfd. split; [congruence | reflexivity].
    + intros ms Hms. rewrite Hms in Hfd.
      cbv [truediv_1000 fdiv] in Hfd. congruence.
    + intros ms Hms. rewrite Hms in Hfd.
      cbv [truediv_1000 fdiv] in Hfd. congruence.
Qed.

End DurationProperties.

(** ** The endpoint's gates *)

Lemma is_space_not_upper (c : ascii) : is_space c = true -> lower_char c = c.
Proof.
  destruct c as [[] [] [] [] [] [] [] []]; try discriminate; reflexivity.
Qed.

Lemma split_aux_spaces (s : string) :
  (forall c, In c (list_ascii_of_string s) -> is_space c = true) ->
  split_aux (lower s) [] = [].
Proof.
  induction s as [| c s IH]; intros Hall.
  - reflexivity.
  - assert (Hc : is_space c = true) by (apply Hall; now left).
    cbn [lower split_aux]. rewrite (is_space_not_upper c Hc), Hc.
    apply IH. intros c' Hin. apply Hall. now right.
Qed.

Section EndpointProperties.

Variable w : World.

(** C7.  A request whose [text] is missing or is the empty string is
    refused with status 400, and nothing is added to the trace: no request
    is sent to the translation service or to the clip store. *)
Theorem empty_text_rejected (request_data : dict) (tr : trace) :
  dict_find request_data "text" = None
  \/ dict_find request_data "text" = Some (PStr "") ->
  get_frames_endpoint w request_data tr =
  (HTTPException 400 "Text cannot be empty", tr).
Proof.
  intros Htext. unfold get_frames_endpoint, dict_get.
  destruct Htext as [-> | ->]; reflexivity.
Qed.

(** C6.  When the translation service answers with a status other than
    200, the request fails with that status; when it answers 200 with a
    dictionary whose [sign_grammar] is missing or is the empty string, the
    request fails with 400.  Either way the POST is the only thing the
    request added to the trace: no clip was fetched. *)
Theorem translation_failure (request_data : dict) (tr : trace)
    (status_code : Z) (json : exn + pyval) :
  let original_text := dict_get request_data "text" (PStr "") in
  let payload := PDict [("text", original_text)] in
  py_truthy original_text = true ->
  requests_post w tr (TRANSLATE_URL w) payload
    = PostResponse status_code json ->
  (status_code <> 200 ->
   get_frames_endpoint w request_data tr =
   (HTTPException status_code "Translation API failed",
    tr ++ [EvPost (TRANSLATE_URL w) payload]))
  /\ (status_code = 200 ->
      forall translate_data,
        json = inr (PDict translate_data) ->
        dict_find translate_data "sign_grammar" = None
        \/ dict_find translate_data "sign_grammar" = Some (PStr "") ->
        get_frames_endpoint w request_data tr =
        (HTTPException 400 "No sign grammar returned",
         tr ++ [EvPost (TRANSLATE_URL w) payload])).
Proof.
  intros original_text payload Htext Hpost.
  unfold get_frames_endpoint, bind, history, emit, ret.
  fold original_text. rewrite Htext. cbn [negb]. fold payload.
  rewrite Hpost. split.
  - intros Hstatus. apply Z.eqb_neq in Hstatus. now rewrite Hstatus.
  - intros -> translate_data -> Hgrammar. cbn [Z.eqb Pos.eqb negb].
    unfold dict_get. destruct Hgrammar as [-> | ->]; reflexivity.
Qed.

(** C10.  When the translation service answers 200 with a grammar that is
    a non-empty string of white space, the request is answered with a
    timeline that has no entry and a total of 0, and the POST is the only
    thing the request added to the trace. *)
Theorem whitespace_grammar_gives_empty_timeline (request_data : dict)
    (tr : trace) (translate_data : dict) (s : string) :
  let original_text := dict_get request_data "text" (PStr "") in
  let payload := PDict [("text", original_text)] in
  py_truthy original_text = true ->
  requests_post w tr (TRANSLATE_URL w) payload
    = PostResponse 200 (inr (PDict translate_data)) ->
  dict_find translate_data "sign_grammar" = Some (PStr s) ->
  s <> "" ->
  (forall c, In c (list_ascii_of_string s) -> is_space c = true) ->
  get_frames_endpoint w request_data tr =
  (Returned {| original_text := original_text;
               sign_grammar := PStr s;
               all_frames := [];
               total_duration := 0 |},
   tr ++ [EvPost (TRANSLATE_URL w) payload]).
Proof.
  intros original_text payload Htext Hpost Hgrammar Hne Hspaces.
  unfold get_frames_endpoint, bind, history, emit, ret.
  fold original_text. rewrite Htext. cbn [negb]. fold payload.
  rewrite Hpost. cbn [Z.eqb Pos.eqb negb].
  unfold dict_get at 1 2 3. rewrite Hgrammar. cbn [py_truthy].
  apply String.eqb_neq in Hne. rewrite Hne. cbn [negb].
  unfold split. rewrite (split_aux_spaces s Hspaces). reflexivity.
Qed.

End EndpointProperties.

Section UnresolvedWord.

Variable w : World.



End UnresolvedWord.

(** ** The properties at work in the demo world *)

(** The scenario of the specification: [hello.gif] is in the store,
    [world.gif] is not, the letters of "world" are.  The timeline has two
    entries, the second made of five letter clips. *)
Example scenario_hello_world :
  get_frames_endpoint Demo.world [("text", PStr "hello")] [] =
  (Returned Demo.hello_timeline, Demo.hello_trace).
Proof. reflexivity. Qed.

(** [int] truncates where the nearest integer is above: a 5 by 7 frame is
    resized to a width of 342, and 480*5/7 is 342.857... *)
Example resize_truncates :
  resize_frame Demo.world {| rows := 7; cols := 5; data := [] |} 480 =
  inr {| rows := 480; cols := 342; data := [] |}.
Proof. reflexivity. Qed.

(** A frame so narrow that the new width is 0 is refused by the resize of
    the demo world, and the clip comes back empty. *)
Example resize_to_zero_width :
  resize_frame Demo.world {| rows := 481; cols := 1; data := [] |} 480 =
  inl (LibraryError "height and width must be > 0").
Proof. reflexivity. Qed.

Lemma resolve_word_fallback_witness :
  resolve_word Demo.world "hello" [] =
    ((["Kg=="; "Kg=="], [inject_Z 40 / 1000; inject_Z 40 / 1000]%Q),
     [EvGet "http://clips/hello.gif"])
  /\ fst (resolve_word Demo.world "world" []) =
     (repeat "Bw==" 5, repeat (inject_Z 100 / 1000)%Q 5).
Proof.
  split.
  - apply (proj1 (resolve_word_fallback Demo.world "hello" [] _ _ eq_refl)).
    reflexivity.
  - rewrite (proj2 (resolve_word_fallback Demo.world "world" [] _ _ eq_refl)
               eq_refl _ _ eq_refl).
    reflexivity.
Defined.

Lemma translation_failure_witness :
  get_frames_endpoint Demo.world [("text", PStr "down")] [] =
    (HTTPException 503 "Translation API failed",
     [EvPost (Some "http://translate") (PDict [("text", PStr "down")])])
  /\ get_frames_endpoint Demo.world [("text", PStr "mute")] [] =
     (HTTPException 400 "No sign grammar returned",
      [EvPost (Some "http://translate") (PDict [("text", PStr "mute")])]).
Proof.
  split.
  - apply (proj1 (translation_failure Demo.world [("text", PStr "down")] []
                    503 _ eq_refl eq_refl)).
    discriminate.
  - apply (proj2 (translation_failure Demo.world [("text", PStr "mute")] []
                    200 _ eq_refl eq_refl) eq_refl [] eq_refl).
    now left.
Defined.

Lemma empty_text_rejected_witness :
  get_frames_endpoint Demo.world [] [] =
    (HTTPException 400 "Text cannot be empty", [])
  /\ get_frames_endpoint Demo.world [("text", PStr "")] [] =
     (HTTPException 400 "Text cannot be empty", []).
Proof.
  split.
  - apply (empty_text_rejected Demo.world [] []). now left.
  - apply (empty_text_rejected Demo.world [("text", PStr "")] []). now right.
Defined.

Lemma uniform_frame_duration_witness :
  snd (fst (get_gif_frames Demo.world "w" [])) =
    repeat (rnd Demo.world (inject_Z 100 / 1000))
      (List.length (fst (fst (get_gif_frames Demo.world "w" []))))
  /\ List.length (fst (fst (get_gif_frames Demo.world "w" []))) = 1%nat.
Proof.
  split; [| reflexivity].
  apply (uniform_frame_duration Demo.world "w" [] [Byte.x02] _ []
           (rnd Demo.world (inject_Z 100 / 1000))
           eq_refl eq_refl eq_refl eq_refl).
Defined.


Lemma whitespace_grammar_gives_empty_timeline_witness :
  get_frames_endpoint Demo.world [("text", PStr "blank")] [] =
  (Returned {| original_text := PStr "blank";
               sign_grammar := PStr "  ";
               all_frames := [];
               total_duration := 0 |},
   [EvPost (Some "http://translate") (PDict [("text", PStr "blank")])]).
Proof.
  apply (whitespace_grammar_gives_empty_timeline Demo.world
           [("text", PStr "blank")] [] _ "  " eq_refl eq_refl eq_refl).
  - discriminate.
  - intros c [<- | [<- | []]]; reflexivity.
Defined.

(** * Further properties of the three functions *)

(** ** Traces *)

Lemma get_urls_app (a b : trace) : get_urls (a ++ b) = get_urls a ++ get_urls b.
Proof.
  induction a as [| [url | url body | word e] a IH]; cbn; congruence.
Qed.

Lemma app_eq_self {A : Type} (l evs : list A) : l ++ evs = l -> evs = [].
Proof.
  intros Heq. apply (app_inv_head l). now rewrite app_nil_r.
Qed.

Section FetchTrace.

Variable w : World.

(** What one call adds to the trace. *)
Lemma get_gif_frames_events (word : string) (tr : trace) :
  exists evs,
    snd (get_gif_frames w word tr) = tr ++ evs
    /\ get_urls evs = [gif_url w word]
    /\ filter is_post evs = [].
Proof.
  rewrite get_gif_frames_unfold. cbn [snd].
  eexists. split; [reflexivity |].
  destruct (caught w word tr); split; reflexivity.
Qed.

(** X1.  One call sends one GET, to the address of the word, and no POST; it
    prints at most one line, and prints it exactly when the [except] clause
    caught something. *)
Theorem get_gif_frames_one_request (word : string) (tr : trace) :
  exists evs,
    snd (get_gif_frames w word tr) = tr ++ evs
    /\ get_urls evs = [gif_url w word]
    /\ filter is_post evs = []
    /\ (List.length (filter is_print evs) <= 1)%nat
    /\ (filter is_print evs = [] <-> caught w word tr = None).
Proof.
  rewrite get_gif_frames_unfold. cbn [snd].
  eexists. split; [reflexivity |].
  destruct (caught w word tr) as [e |]; cbn; repeat split;
    try reflexivity; try lia; discriminate.
Qed.

(** X2.  An answer whose status is not 200 gives the empty clip without a line
    being printed, whatever reading its body would have done. *)
Theorem not_found_is_silent (word : string) (tr : trace) (status_code : Z)
    (content : exn + bytes) :
  requests_get w tr (gif_url w word) = GetResponse status_code content ->
  status_code <> 200 ->
  get_gif_frames w word tr = (([], []), tr ++ [EvGet (gif_url w word)]).
Proof.
  intros Hget Hstatus. rewrite get_gif_frames_unfold. unfold caught.
  rewrite Hget. cbn [try_block].
  apply Z.eqb_neq in Hstatus. rewrite Hstatus. reflexivity.
Qed.

Lemma frame_loop_complete (it : frame_iter) (fd : Q) :
  forall fs ds,
    snd (frame_loop w it fd fs ds) = None ->
    Forall2 (fun frame jpeg => encode_frame w frame = inr jpeg)
      (iter_frames it) (encoded_prefix w it).
Proof.
  induction it as [| e | frame rest IH]; intros fs ds; cbn.
  - constructor.
  - discriminate.
  - destruct (encode_frame w frame) as [e | jpeg] eqn:Henc; cbn.
    + discriminate.
    + intros Hnone. constructor; [exact Henc | exact (IH _ _ Hnone)].
Qed.

(** X3.  When the store answers 200, the container opens and nothing is caught,
    the clip holds every frame of the GIF, encoded, in the order of the
    GIF: frames go missing only with a line printed. *)
Theorem silent_fetch_is_complete (word : string) (tr : trace)
    (content : exn + bytes) (it : frame_iter) (fd : Q) :
  requests_get w tr (gif_url w word) = GetResponse 200 content ->
  open_gif w content = inr (it, fd) ->
  caught w word tr = None ->
  Forall2 (fun frame jpeg => encode_frame w frame = inr jpeg)
    (iter_frames it) (fst (fst (get_gif_frames w word tr)))
  /\ List.length (snd (fst (get_gif_frames w word tr))) =
     List.length (iter_frames it).
Proof.
  intros Hget Hopen Hnone.
  rewrite get_gif_frames_unfold. cbn [fst snd]. rewrite try_block_clip, Hget.
  cbn. rewrite Hopen. cbn [fst snd].
  unfold caught in Hnone. rewrite Hget in Hnone. cbn in Hnone.
  rewrite Hopen in Hnone.
  pose proof (frame_loop_complete it fd [] [] Hnone) as Hall.
  split; [exact Hall |].
  rewrite repeat_length. symmetry. exact (Forall2_length Hall).
Qed.

End FetchTrace.

Lemma letters_length (t : string) :
  List.length (letters t) = String.length t.
Proof.
  induction t as [| c t IH]; cbn; congruence.
Qed.

Section ResolveTrace.

Variable w : World.

Lemma fetch_each_events (ls : list string) :
  forall tr,
  exists evs,
    snd (fetch_each w ls tr) = tr ++ evs
    /\ get_urls evs = map (gif_url w) ls
    /\ filter is_post evs = [].
Proof.
  induction ls as [| t rest IH]; intros tr; cbn [fetch_each].
  - exists []. cbn. now rewrite app_nil_r.
  - unfold bind, ret.
    destruct (get_gif_frames_events w t tr) as (evs1 & Htr1 & Hget1 & Hpost1).
    destruct (get_gif_frames w t tr) as [c tr1]. cbn [snd] in Htr1. subst tr1.
    destruct (IH (tr ++ evs1)) as (evs2 & Htr2 & Hget2 & Hpost2).
    destruct (fetch_each w rest (tr ++ evs1)) as [cs tr2].
    cbn [snd] in *. subst tr2.
    exists (evs1 ++ evs2). rewrite app_assoc. split; [reflexivity |].
    rewrite get_urls_app, filter_app, Hget1, Hget2, Hpost1, Hpost2.
    split; reflexivity.
Qed.

Lemma resolve_word_events (t : string) (tr : trace) :
  exists evs,
    snd (resolve_word w t tr) = tr ++ evs
    /\ get_urls evs =
       (if clip_is_empty (fst (get_gif_frames w t tr)) then
          gif_url w t :: map (gif_url w) (letters t)
        else [gif_url w t])
    /\ filter is_post evs = [].
Proof.
  rewrite resolve_word_is_resolve. unfold resolve, bind, ret.
  destruct (get_gif_frames_events w t tr) as (evs1 & Htr1 & Hget1 & Hpost1).
  destruct (get_gif_frames w t tr) as [c tr1]. cbn [fst snd] in *. subst tr1.
  destruct (clip_is_empty c).
  - destruct (fetch_each_events (letters t) (tr ++ evs1))
      as (evs2 & Htr2 & Hget2 & Hpost2).
    destruct (fetch_each w (letters t) (tr ++ evs1)) as [cs tr2].
    cbn [snd] in *. subst tr2.
    exists (evs1 ++ evs2). rewrite app_assoc. split; [reflexivity |].
    rewrite get_urls_app, filter_app, Hget1, Hget2, Hpost1, Hpost2.
    split; reflexivity.
  - exists evs1. repeat split; assumption.
Qed.

(** X5.  Resolving a word sends one GET when the word has a clip.  When it has
    none it sends one more GET per character, in the order of the
    characters: 1 + len(word) requests in all, and no POST. *)
Theorem resolve_word_requests (t : string) (tr : trace) :
  exists evs,
    snd (resolve_word w t tr) = tr ++ evs
    /\ filter is_post evs = []
    /\ (clip_is_empty (fst (get_gif_frames w t tr)) = false ->
        get_urls evs = [gif_url w t])
    /\ (clip_is_empty (fst (get_gif_frames w t tr)) = true ->
        get_urls evs = gif_url w t :: map (gif_url w) (letters t)
        /\ List.length (get_urls evs) = S (String.length t)).
Proof.
  destruct (resolve_word_events t tr) as (evs & Htr & Hget & Hpost).
  exists evs. split; [exact Htr |]. split; [exact Hpost |].
  destruct (clip_is_empty (fst (get_gif_frames w t tr))); split;
    try discriminate; intros _; try exact Hget.
  split; [exact Hget |].
  rewrite Hget. cbn [List.length]. now rewrite length_map, letters_length.
Qed.

(** The word loop sends no POST, and between one GET per word and one GET
    per word and per character. *)
Lemma word_loop_events (words : list string) :
  forall acc total tr,
  exists evs,
    snd (word_loop w words acc total tr) = tr ++ evs
    /\ filter is_post evs = []
    /\ (List.length words <= List.length (get_urls evs)
        <= List.length words + list_sum (map String.length words))%nat.
Proof.
  induction words as [| t rest IH]; intros acc total tr; cbn [word_loop].
  - exists []. cbn. rewrite app_nil_r. repeat split; lia.
  - unfold bind.
    destruct (resolve_word_events t tr) as (evs1 & Htr1 & Hget1 & Hpost1).
    destruct (resolve_word w t tr) as [[fs ds] tr1]. cbn [snd] in Htr1.
    subst tr1.
    destruct (IH (acc ++ [{| word := t; frames := fs; durations := ds |}])
                 (fadd w total (py_sum w ds)) (tr ++ evs1))
      as (evs2 & Htr2 & Hpost2 & Hcount).
    exists (evs1 ++ evs2). rewrite app_assoc. split; [exact Htr2 |].
    rewrite filter_app, Hpost1, Hpost2. split; [reflexivity |].
    rewrite get_urls_app, length_app, Hget1.
    destruct (clip_is_empty (fst (get_gif_frames w t tr)));
      unfold list_sum in *; cbn [List.length map fold_right];
      rewrite ?length_map, ?letters_length; lia.
Qed.

End ResolveTrace.

(** ** The endpoint, branch by branch *)

Section EndpointCases.

Variable w : World.

(** The endpoint with its monad unfolded: the outcome and the trace of
    each branch. *)
Lemma get_frames_endpoint_cases (request_data : dict) (tr : trace) :
  let text := dict_get request_data "text" (PStr "") in
  let payload := PDict [("text", text)] in
  let tr1 := tr ++ [EvPost (TRANSLATE_URL w) payload] in
  get_frames_endpoint w request_data tr =
  if py_truthy text then
    match requests_post w tr (TRANSLATE_URL w) payload with
    | PostRaises e => (Unhandled e, tr1)
    | PostResponse status_code json =>
        if status_code =? 200 then
          match json with
          | inl e => (Unhandled e, tr1)
          | inr (PDict translate_data) =>
              let grammar :=
                dict_get translate_data "sign_grammar" (PStr "") in
              if py_truthy grammar then
                match grammar with
                | PStr s =>
                    let r := word_loop w (split (lower s)) [] 0%Q tr1 in
                    (Returned {| original_text := text;
                                 sign_grammar := grammar;
                                 all_frames := fst (fst r);
                                 total_duration := snd (fst r) |},
                     snd r)
                | _ => (Unhandled AttributeError, tr1)
                end
              else (HTTPException 400 "No sign grammar returned", tr1)
          | inr _ => (Unhandled AttributeError, tr1)
          end
        else (HTTPException status_code "Translation API failed", tr1)
    end
  else (HTTPException 400 "Text cannot be empty", tr).
Proof.
  intros text payload tr1.
  unfold get_frames_endpoint, bind, history, emit, ret.
  fold text. destruct (py_truthy text); cbn [negb]; [| reflexivity].
  fold payload. fold tr1.
  destruct (requests_post w tr (TRANSLATE_URL w) payload)
    as [e | status_code json]; [reflexivity |].
  destruct (status_code =? 200); cbn [negb]; [| reflexivity].
  destruct json as [e | [| b | z | q | s | l | translate_data]];
    try reflexivity.
  destruct (py_truthy (dict_get translate_data "sign_grammar" (PStr "")));
    cbn [negb]; [| reflexivity].
  destruct (dict_get translate_data "sign_grammar" (PStr ""))
    as [| b | z | q | s | l | d]; try reflexivity.
  cbv zeta.
  destruct (word_loop w (split (lower s)) [] 0%Q tr1) as [[af total] tr2].
  reflexivity.
Qed.

(** X6.  A request is refused before anything is sent exactly when its [text]
    is falsy (missing, empty, [None], [False], 0, an empty list or
    dictionary): then the answer is 400 and the trace is untouched, and in
    every other case the trace has grown. *)
Theorem refused_without_request_iff_falsy_text (request_data : dict)
    (tr : trace) :
  (py_truthy (dict_get request_data "text" (PStr "")) = false ->
   get_frames_endpoint w request_data tr =
   (HTTPException 400 "Text cannot be empty", tr))
  /\ (snd (get_frames_endpoint w request_data tr) = tr ->
      py_truthy (dict_get request_data "text" (PStr "")) = false).
Proof.
  rewrite get_frames_endpoint_cases. cbv zeta.
  destruct (py_truthy (dict_get request_data "text" (PStr "")));
    [| split; reflexivity].
  split; [discriminate |]. intros Hsame. exfalso.
  set (tr1 := tr ++ [EvPost _ _]) in *.
  assert (Hgrow : forall evs, tr1 ++ evs <> tr).
  { intros evs Heq. unfold tr1 in Heq. rewrite <- app_assoc in Heq.
    apply app_eq_self in Heq. discriminate. }
  assert (Hgrow1 : tr1 <> tr).
  { intros Heq. apply (Hgrow []). now rewrite app_nil_r. }
  destruct (requests_post w tr _ _) as [e | status_code json];
    [now apply Hgrow1 |].
  destruct (status_code =? 200); [| now apply Hgrow1].
  destruct json as [e | [| b | z | q | s | l | translate_data]];
    try (now apply Hgrow1).
  destruct (py_truthy (dict_get translate_data "sign_grammar" (PStr "")));
    [| now apply Hgrow1].
  destruct (dict_get translate_data "sign_grammar" (PStr ""))
    as [| b | z | q | s | l | d]; try (now apply Hgrow1).
  cbn [snd] in Hsame.
  destruct (word_loop_events w (split (lower s)) [] 0%Q tr1)
    as (evs & Htr & _).
  rewrite Htr in Hsame. exact (Hgrow evs Hsame).
Qed.

(** X7.  A request that is not answered with a timeline sent no GET: its trace
    is the old one, or the old one and the POST.  An [HTTPException] never
    carries the status 200. *)
Theorem failed_request_fetches_nothing (request_data : dict) (tr : trace) :
  let payload := PDict [("text", dict_get request_data "text" (PStr ""))] in
  let tr1 := tr ++ [EvPost (TRANSLATE_URL w) payload] in
  match get_frames_endpoint w request_data tr with
  | (Returned _, _) => True
  | (HTTPException status_code _, tr') =>
      status_code <> 200 /\ (tr' = tr \/ tr' = tr1)
  | (Unhandled _, tr') => tr' = tr1
  end.
Proof.
  intros payload tr1. rewrite get_frames_endpoint_cases. cbv zeta.
  fold payload. fold tr1.
  destruct (py_truthy (dict_get request_data "text" (PStr "")));
    [| split; [discriminate | now left]].
  destruct (requests_post w tr (TRANSLATE_URL w) payload)
    as [e | status_code json]; [reflexivity |].
  destruct (status_code =? 200) eqn:Hstatus;
    [| split; [now apply Z.eqb_neq | now right]].
  destruct json as [e | [| b | z | q | s | l | translate_data]];
    try reflexivity.
  destruct (py_truthy (dict_get translate_data "sign_grammar" (PStr "")));
    [| split; [discriminate | now right]].
  destruct (dict_get translate_data "sign_grammar" (PStr ""))
    as [| b | z | q | s | l | d]; try reflexivity; exact I.
Qed.

End EndpointCases.

Section EndpointOutcomes.

Variable w : World.

(** X8.  Once the translation service has answered 200 with a dictionary whose
    [sign_grammar] is a non-empty string, the request is answered with a
    timeline whatever the clip store and the decoder do: it echoes the text
    and the grammar as received (not lower-cased) and has one entry per
    word of the lower-cased grammar, in order. *)
Theorem clip_store_cannot_fail_request (request_data : dict) (tr : trace)
    (translate_data : dict) (s : string) :
  let text := dict_get request_data "text" (PStr "") in
  let payload := PDict [("text", text)] in
  py_truthy text = true ->
  requests_post w tr (TRANSLATE_URL w) payload
    = PostResponse 200 (inr (PDict translate_data)) ->
  dict_find translate_data "sign_grammar" = Some (PStr s) ->
  s <> "" ->
  exists tl tr',
    get_frames_endpoint w request_data tr = (Returned tl, tr')
    /\ original_text tl = text
    /\ sign_grammar tl = PStr s
    /\ map word (all_frames tl) = split (lower s).
Proof.
  intros text payload Htext Hpost Hgrammar Hne.
  rewrite get_frames_endpoint_cases. cbv zeta. fold text. fold payload.
  rewrite Htext, Hpost. cbn [Z.eqb Pos.eqb].
  unfold dict_get at 1 2 3. rewrite Hgrammar. cbn [py_truthy].
  apply String.eqb_neq in Hne. rewrite Hne. cbn [negb].
  eexists _, _. split; [reflexivity |]. cbn.
  repeat split.
  destruct (word_loop_entries w (split (lower s)) [] 0%Q
              (tr ++ [EvPost (TRANSLATE_URL w) payload]))
    as (entries & Heq & Hwords & _).
  rewrite Heq. exact Hwords.
Qed.

(** X9.  An answer of the translation service that is out of contract is not
    turned into an HTTP error: a transport error and a body that is not
    JSON escape as they are, a body that is not an object and a grammar
    that is truthy but not a string escape as [AttributeError]; the POST is
    all that was sent. *)
Theorem out_of_contract_answer_is_unhandled (request_data : dict)
    (tr : trace) :
  let text := dict_get request_data "text" (PStr "") in
  let payload := PDict [("text", text)] in
  let tr1 := tr ++ [EvPost (TRANSLATE_URL w) payload] in
  let answer := requests_post w tr (TRANSLATE_URL w) payload in
  py_truthy text = true ->
  (forall e, answer = PostRaises e ->
     get_frames_endpoint w request_data tr = (Unhandled e, tr1))
  /\ (forall e, answer = PostResponse 200 (inl e) ->
        get_frames_endpoint w request_data tr = (Unhandled e, tr1))
  /\ (forall v, answer = PostResponse 200 (inr v) ->
        (forall d, v <> PDict d) ->
        get_frames_endpoint w request_data tr = (Unhandled AttributeError, tr1))
  /\ (forall d g, answer = PostResponse 200 (inr (PDict d)) ->
        dict_find d "sign_grammar" = Some g ->
        py_truthy g = true ->
        (forall s, g <> PStr s) ->
        get_frames_endpoint w request_data tr = (Unhandled AttributeError, tr1)).
Proof.
  intros text payload tr1 answer Htext.
  rewrite get_frames_endpoint_cases. cbv zeta.
  fold text. fold payload. fold tr1. fold answer. rewrite Htext.
  split; [| split; [| split]].
  - intros e ->. reflexivity.
  - intros e ->. reflexivity.
  - intros v -> Hnot. cbn [Z.eqb Pos.eqb].
    destruct v as [| b | z | q | s | l | d]; try reflexivity.
    now destruct (Hnot d).
  - intros d g -> Hfind Htruthy Hnot. cbn [Z.eqb Pos.eqb].
    unfold dict_get. rewrite Hfind, Htruthy.
    destruct g as [| b | z | q | s | l | d']; try reflexivity.
    now destruct (Hnot s).
Qed.

(** X10.  A request answered with a timeline sent one POST, first, and then only
    GETs: at least one per entry, and at most one per entry and one per
    character of the entries' words. *)
Theorem returned_request_bound (request_data : dict) (tr tr' : trace)
    (tl : timeline) :
  get_frames_endpoint w request_data tr = (Returned tl, tr') ->
  exists evs,
    tr' = tr ++ EvPost (TRANSLATE_URL w)
                  (PDict [("text", dict_get request_data "text" (PStr ""))])
                :: evs
    /\ filter is_post evs = []
    /\ (List.length (all_frames tl) <= List.length (get_urls evs)
        <= List.length (all_frames tl)
           + list_sum (map (fun e => String.length (word e)) (all_frames tl)))%nat.
Proof.
  rewrite get_frames_endpoint_cases. cbv zeta.
  destruct (py_truthy (dict_get request_data "text" (PStr "")));
    [| discriminate].
  destruct (requests_post w tr _ _) as [e | status_code json];
    [discriminate |].
  destruct (status_code =? 200); [| discriminate].
  destruct json as [e | [| b | z | q | s | l | translate_data]];
    try discriminate.
  destruct (py_truthy (dict_get translate_data "sign_grammar" (PStr "")));
    [| discriminate].
  destruct (dict_get translate_data "sign_grammar" (PStr ""))
    as [| b | z | q | s | l | d]; try discriminate.
  set (tr1 := tr ++ [EvPost _ _]).
  destruct (word_loop_entries w (split (lower s)) [] 0%Q tr1)
    as (entries & Heq & Hwords & _).
  destruct (word_loop_events w (split (lower s)) [] 0%Q tr1)
    as (evs & Htr & Hpost & Hcount).
  intros Hret. inversion Hret as [[Htl Htr']]. clear Hret. subst tl.
  exists evs. rewrite Htr. subst tr1. rewrite <- app_assoc.
  split; [reflexivity |]. split; [exact Hpost |].
  cbn [all_frames]. rewrite Heq. cbn [fst app].
  rewrite <- Hwords in Hcount. rewrite length_map, map_map in Hcount.
  exact Hcount.
Qed.

End EndpointOutcomes.

(** ** Tokens *)

Lemma lower_char_not_upper (c : ascii) : is_upper (lower_char c) = false.
Proof.
  destruct c as [[] [] [] [] [] [] [] []]; reflexivity.
Qed.

Lemma lower_no_upper (s : string) : no_upper (lower s).
Proof.
  unfold no_upper. induction s as [| c s IH]; cbn.
  - constructor.
  - constructor; [apply lower_char_not_upper | exact IH].
Qed.

Lemma list_ascii_of_append (a b : string) :
  list_ascii_of_string (a ++ b) =
  list_ascii_of_string a ++ list_ascii_of_string b.
Proof.
  induction a as [| c a IH]; cbn; congruence.
Qed.

Lemma string_of_nonempty_list (l : list ascii) :
  l <> [] -> string_of_list_ascii l <> "".
Proof.
  destruct l; [congruence | discriminate].
Qed.

(** The characters of the tokens are characters of the string. *)
Lemma split_aux_inherits (Q : ascii -> Prop) (s : string) :
  forall cur,
    Forall Q (list_ascii_of_string s) -> Forall Q cur ->
    Forall (fun t => Forall Q (list_ascii_of_string t)) (split_aux s cur).
Proof.
  assert (Hword : forall cur, Forall Q cur ->
            Forall Q (list_ascii_of_string (string_of_list_ascii (rev cur)))).
  { intros cur Hcur. rewrite list_ascii_of_string_of_list_ascii.
    now apply Forall_rev. }
  induction s as [| c s IH]; intros cur Hs Hcur; cbn [split_aux].
  - destruct cur; constructor; [now apply Hword | constructor].
  - cbn in Hs. inversion Hs as [| c' l Hc Hrest]; subst.
    destruct (is_space c).
    + destruct cur as [| c0 cur'].
      * apply IH; [exact Hrest | constructor].
      * constructor; [now apply Hword |].
        apply IH; [exact Hrest | constructor].
    + apply IH; [exact Hrest | now constructor].
Qed.

(** No token is empty and no token holds white space. *)
Lemma split_aux_tokens (s : string) :
  forall cur,
    Forall (fun c => is_space c = false) cur ->
    Forall (fun t => t <> "" /\ no_space t) (split_aux s cur).
Proof.
  assert (Hword : forall c cur,
            Forall (fun c => is_space c = false) (c :: cur) ->
            string_of_list_ascii (rev (c :: cur)) <> ""
            /\ no_space (string_of_list_ascii (rev (c :: cur)))).
  { intros c cur Hcur. split.
    - apply string_of_nonempty_list. cbn. now destruct (rev cur).
    - unfold no_space. rewrite list_ascii_of_string_of_list_ascii.
      now apply Forall_rev. }
  induction s as [| c s IH]; intros cur Hcur; cbn [split_aux].
  - destruct cur as [| c0 cur']; constructor; [now apply Hword | constructor].
  - destruct (is_space c) eqn:Hc.
    + destruct cur as [| c0 cur'].
      * apply IH. constructor.
      * constructor; [now apply Hword | apply IH; constructor].
    + apply IH. now constructor.
Qed.

Section Tokens.

Variable w : World.

(** X11.  Every word of a returned timeline, hence every word whose clip was
    asked for, is non-empty, holds no white space and no upper-case ASCII
    letter. *)
Theorem timeline_words_are_clean (request_data : dict) (tr tr' : trace)
    (tl : timeline) :
  get_frames_endpoint w request_data tr = (Returned tl, tr') ->
  Forall (fun e => word e <> "" /\ no_space (word e) /\ no_upper (word e))
    (all_frames tl).
Proof.
  intros Hrun. apply get_frames_endpoint_returned in Hrun.
  destruct Hrun as (s & _ & _ & Hwords & _).
  pose proof (split_aux_tokens (lower s) [] (Forall_nil _)) as Hshape.
  pose proof (split_aux_inherits (fun c => is_upper c = false) (lower s) []
                (lower_no_upper s) (Forall_nil _)) as Hlow.
  fold (split (lower s)) in Hshape, Hlow. rewrite <- Hwords in Hshape, Hlow.
  rewrite Forall_map in Hshape, Hlow.
  rewrite Forall_forall in *. intros e Hin.
  destruct (Hshape e Hin) as [Hne Hsp].
  repeat split; [exact Hne | exact Hsp | exact (Hlow e Hin)].
Qed.

Lemma append_inj_l (p a b : string) : (p ++ a = p ++ b)%string -> a = b.
Proof.
  induction p as [| c p IH]; cbn; [trivial |].
  intros Heq. inversion Heq. auto.
Qed.

Lemma append_inj_r (a b sfx : string) : (a ++ sfx = b ++ sfx)%string -> a = b.
Proof.
  intros Heq. apply (f_equal list_ascii_of_string) in Heq.
  rewrite !list_ascii_of_append in Heq. apply app_inv_tail in Heq.
  apply (f_equal string_of_list_ascii) in Heq.
  now rewrite !string_of_list_ascii_of_string in Heq.
Qed.

(** X12.  Different words are asked for at different addresses. *)
Theorem gif_url_injective (a b : string) :
  a <> b -> gif_url w a <> gif_url w b.
Proof.
  intros Hne Heq. apply Hne. unfold gif_url in Heq.
  apply append_inj_l, append_inj_l in Heq. now apply append_inj_r in Heq.
Qed.

End Tokens.

Lemma split_aux_word (t : string) :
  no_space t ->
  forall rest cur,
    split_aux (t ++ rest) cur =
    split_aux rest (rev (list_ascii_of_string t) ++ cur).
Proof.
  unfold no_space. induction t as [| c t IH]; intros Ht rest cur.
  - reflexivity.
  - cbn in Ht. inversion Ht as [| c' l Hc Hrest]; subst.
    cbn [append split_aux]. rewrite Hc, (IH Hrest).
    cbn [list_ascii_of_string rev]. now rewrite <- app_assoc.
Qed.

Lemma rev_chars_nonempty (t : string) :
  t <> "" -> rev (list_ascii_of_string t) <> [].
Proof.
  destruct t as [| c t]; [congruence |]. intros _. cbn.
  now destruct (rev (list_ascii_of_string t)).
Qed.

(** X13.  Words that are non-empty and free of white space, joined by single
    spaces, are split into themselves. *)
Theorem split_join_spaces (ws : list string) :
  Forall (fun t => t <> "" /\ no_space t) ws ->
  split (join_spaces ws) = ws.
Proof.
  unfold split.
  induction 1 as [| t ws [Hne Hsp] Hrest IH]; [reflexivity |].
  pose proof (rev_chars_nonempty t Hne) as Hrev.
  destruct ws as [| t' ws'].
  - cbn [join_spaces].
    replace t with (t ++ "")%string at 1
      by (clear; induction t; cbn; congruence).
    rewrite (split_aux_word t Hsp), app_nil_r. cbn [split_aux].
    destruct (rev (list_ascii_of_string t)) as [| c l] eqn:Hl;
      [congruence |].
    rewrite <- Hl, rev_involutive, string_of_list_ascii_of_string.
    reflexivity.
  - change (join_spaces (t :: t' :: ws'))
      with (t ++ " " ++ join_spaces (t' :: ws'))%string.
    rewrite (split_aux_word t Hsp), app_nil_r.
    cbn [append split_aux]. change (is_space " ") with true. cbv iota.
    destruct (rev (list_ascii_of_string t)) as [| c l] eqn:Hl;
      [congruence |].
    rewrite <- Hl, rev_involutive, string_of_list_ascii_of_string, IH.
    reflexivity.
Qed.

(** ** With a store that answers an address the same way every time *)

Section StableStore.

Variable w : World.
Hypothesis store_is_stable : stable_store w.

Lemma get_gif_frames_pure (word : string) (tr : trace) :
  fst (get_gif_frames w word tr) = fetch_pure w word.
Proof.
  rewrite get_gif_frames_unfold. cbn [fst]. unfold fetch_pure.
  now rewrite (store_is_stable tr []).
Qed.

Lemma fetch_each_pure (ls : list string) :
  forall tr, fst (fetch_each w ls tr) = map (fetch_pure w) ls.
Proof.
  induction ls as [| t rest IH]; intros tr; cbn [fetch_each map].
  - reflexivity.
  - unfold bind, ret.
    pose proof (get_gif_frames_pure t tr) as Hc.
    destruct (get_gif_frames w t tr) as [c tr1]. cbn [fst] in Hc. subst c.
    specialize (IH tr1). destruct (fetch_each w rest tr1) as [cs tr2].
    cbn [fst] in *. now subst cs.
Qed.

Lemma resolve_word_pure (t : string) (tr : trace) :
  fst (resolve_word w t tr) = resolve_pure w t.
Proof.
  rewrite resolve_word_is_resolve. unfold resolve, resolve_pure, bind, ret.
  pose proof (get_gif_frames_pure t tr) as Hc.
  destruct (get_gif_frames w t tr) as [c tr1]. cbn [fst] in Hc. subst c.
  destruct (clip_is_empty (fetch_pure w t)); [| reflexivity].
  pose proof (fetch_each_pure (letters t) tr1) as Hcs.
  destruct (fetch_each w (letters t) tr1) as [cs tr2].
  cbn [fst] in *. now subst cs.
Qed.

Lemma word_loop_pure (words : list string) :
  forall acc total tr,
    fst (fst (word_loop w words acc total tr)) =
    acc ++ map (entry_pure w) words.
Proof.
  induction words as [| t rest IH]; intros acc total tr; cbn [word_loop map].
  - unfold ret. cbn. now rewrite app_nil_r.
  - unfold bind.
    pose proof (resolve_word_pure t tr) as Hc.
    destruct (resolve_word w t tr) as [[fs ds] tr1]. cbn [fst] in Hc.
    rewrite IH, <- app_assoc. unfold entry_pure at 2. rewrite <- Hc.
    reflexivity.
Qed.

(** X14.  With a stable store every entry of a returned timeline is a function
    of its word alone: neither the place of the word in the grammar nor the
    words around it matter, and a word that comes twice has the same entry
    twice. *)
Theorem entries_depend_on_their_word_only (request_data : dict)
    (tr tr' : trace) (tl : timeline) :
  get_frames_endpoint w request_data tr = (Returned tl, tr') ->
  all_frames tl = map (entry_pure w) (map word (all_frames tl)).
Proof.
  rewrite get_frames_endpoint_cases. cbv zeta.
  destruct (py_truthy (dict_get request_data "text" (PStr "")));
    [| discriminate].
  destruct (requests_post w tr _ _) as [e | status_code json];
    [discriminate |].
  destruct (status_code =? 200); [| discriminate].
  destruct json as [e | [| b | z | q | s | l | translate_data]];
    try discriminate.
  destruct (py_truthy (dict_get translate_data "sign_grammar" (PStr "")));
    [| discriminate].
  destruct (dict_get translate_data "sign_grammar" (PStr ""))
    as [| b | z | q | s | l | d]; try discriminate.
  intros Hret. inversion Hret as [[Htl Htr']]. clear Hret. subst tl.
  cbn [all_frames]. rewrite word_loop_pure. cbn [app].
  rewrite !map_map. apply map_ext. reflexivity.
Qed.

Lemma letters_single (t : string) : String.length t = 1%nat -> letters t = [t].
Proof.
  destruct t as [| c [| c' t]]; cbn; try discriminate. reflexivity.
Qed.

(** X15.  With a stable store the fallback cannot help a word of one character:
    the word resolves to the clip fetched for it, and when that clip is
    empty the same address is asked for a second time. *)
Theorem single_letter_fallback_is_futile (t : string) (tr : trace) :
  String.length t = 1%nat ->
  fst (resolve_word w t tr) = fst (get_gif_frames w t tr)
  /\ (clip_is_empty (fst (get_gif_frames w t tr)) = true ->
      exists evs,
        snd (resolve_word w t tr) = tr ++ evs
        /\ get_urls evs = [gif_url w t; gif_url w t]).
Proof.
  intros Hlen. split.
  - rewrite resolve_word_pure, get_gif_frames_pure. unfold resolve_pure.
    rewrite (letters_single t Hlen). cbn [map filter].
    pose proof (get_gif_frames_lengths w t tr) as Hlens.
    rewrite get_gif_frames_pure in Hlens.
    unfold clip_nonempty.
    destruct (clip_is_empty (fetch_pure w t)) eqn:Hempty; [| reflexivity].
    cbn. unfold clip_is_empty in Hempty.
    destruct (fetch_pure w t) as [[| f fs] ds]; cbn in *; [| discriminate].
    now destruct ds.
  - intros Hempty.
    destruct (resolve_word_events w t tr) as (evs & Htr & Hget & _).
    exists evs. split; [exact Htr |].
    now rewrite Hget, Hempty, (letters_single t Hlen).
Qed.

End StableStore.

Section ClipPrefix.

Variable w : World.

Lemma encoded_prefix_firstn (it : frame_iter) :
  exists n,
    (n <= List.length (iter_frames it))%nat
    /\ Forall2 (fun frame jpeg => encode_frame w frame = inr jpeg)
         (firstn n (iter_frames it)) (encoded_prefix w it).
Proof.
  induction it as [| e | frame rest (n & Hn & Hall)].
  - exists 0%nat. split; [cbn; lia | constructor].
  - exists 0%nat. split; [cbn; lia | constructor].
  - cbn [iter_frames encoded_prefix].
    destruct (encode_frame w frame) as [e | jpeg] eqn:Henc.
    + exists 0%nat. split; [cbn; lia | constructor].
    + exists (S n). split; [cbn; lia |]. cbn [firstn].
      constructor; assumption.
Qed.

(** X4.  The frames of a fetched clip are the encodings of the first frames of
    the GIF, in order: no frame is skipped or moved, and a failure only
    cuts the tail off. *)
Theorem clip_is_an_initial_segment (word : string) (tr : trace)
    (content : exn + bytes) (it : frame_iter) (fd : Q) :
  requests_get w tr (gif_url w word) = GetResponse 200 content ->
  open_gif w content = inr (it, fd) ->
  exists n,
    (n <= List.length (iter_frames it))%nat
    /\ Forall2 (fun frame jpeg => encode_frame w frame = inr jpeg)
         (firstn n (iter_frames it)) (fst (fst (get_gif_frames w word tr))).
Proof.
  intros Hget Hopen.
  rewrite get_gif_frames_unfold. cbn [fst]. rewrite try_block_clip, Hget.
  cbn. rewrite Hopen. cbn [fst]. apply encoded_prefix_firstn.
Qed.

End ClipPrefix.

(** ** The further properties at work *)

Lemma demo_stable_store : stable_store Demo.world.
Proof. intros tr tr' url. reflexivity. Qed.

Lemma not_found_is_silent_witness :
  get_gif_frames Demo.world "qq" [] =
  (([], []), [EvGet "http://clips/qq.gif"]).
Proof.
  apply (not_found_is_silent Demo.world "qq" [] 404 (inr []) eq_refl).
  discriminate.
Defined.

Lemma silent_fetch_is_complete_witness :
  Forall2 (fun frame jpeg => encode_frame Demo.world frame = inr jpeg)
    [Demo.frame_320x240; Demo.frame_320x240]
    (fst (fst (get_gif_frames Demo.world "hello" [])))
  /\ List.length (snd (fst (get_gif_frames Demo.world "hello" []))) = 2%nat.
Proof.
  apply (silent_fetch_is_complete Demo.world "hello" [] (inr [Byte.x01])
           _ _ eq_refl eq_refl eq_refl).
Defined.

Lemma clip_is_an_initial_segment_witness :
  exists n,
    (n <= 1)%nat
    /\ Forall2 (fun frame jpeg => encode_frame Demo.world frame = inr jpeg)
         (firstn n [Demo.frame_320x240])
         (fst (fst (get_gif_frames Demo.world "cut" []))).
Proof.
  apply (clip_is_an_initial_segment Demo.world "cut" [] (inr [Byte.x03])
           _ _ eq_refl eq_refl).
Defined.

Lemma clip_store_cannot_fail_request_witness :
  exists tl tr',
    get_frames_endpoint Demo.world [("text", PStr "hello")] [] =
      (Returned tl, tr')
    /\ original_text tl = PStr "hello"
    /\ sign_grammar tl = PStr "HELLO WORLD"
    /\ map word (all_frames tl) = ["hello"; "world"].
Proof.
  apply (clip_store_cannot_fail_request Demo.world [("text", PStr "hello")]
           [] _ "HELLO WORLD" eq_refl eq_refl eq_refl).
  discriminate.
Defined.

Lemma out_of_contract_answer_is_unhandled_witness :
  get_frames_endpoint Odd.world [("text", PStr "offline")] [] =
    (Unhandled (LibraryError "connection refused"),
     [EvPost (Some "http://translate") (PDict [("text", PStr "offline")])])
  /\ get_frames_endpoint Odd.world [("text", PStr "html")] [] =
     (Unhandled (LibraryError "Expecting value"),
      [EvPost (Some "http://translate") (PDict [("text", PStr "html")])])
  /\ get_frames_endpoint Odd.world [("text", PStr "list")] [] =
     (Unhandled AttributeError,
      [EvPost (Some "http://translate") (PDict [("text", PStr "list")])])
  /\ get_frames_endpoint Odd.world [("text", PStr "number")] [] =
     (Unhandled AttributeError,
      [EvPost (Some "http://translate") (PDict [("text", PStr "number")])]).
Proof.
  split; [| split; [| split]].
  - apply (proj1 (out_of_contract_answer_is_unhandled Odd.world
                    [("text", PStr "offline")] [] eq_refl) _ eq_refl).
  - apply (proj1 (proj2 (out_of_contract_answer_is_unhandled Odd.world
                           [("text", PStr "html")] [] eq_refl)) _ eq_refl).
  - apply (proj1 (proj2 (proj2 (out_of_contract_answer_is_unhandled Odd.world
                                  [("text", PStr "list")] [] eq_refl)))
             _ eq_refl).
    discriminate.
  - apply (proj2 (proj2 (proj2 (out_of_contract_answer_is_unhandled Odd.world
                                  [("text", PStr "number")] [] eq_refl)))
             _ (PInt 7) eq_refl eq_refl eq_refl).
    discriminate.
Defined.

Lemma returned_request_bound_witness :
  exists evs,
    Demo.hello_trace =
      [] ++ EvPost (TRANSLATE_URL Demo.world)
              (PDict [("text",
                       dict_get [("text", PStr "hello")] "text" (PStr ""))])
            :: evs
    /\ filter is_post evs = []
    /\ (2 <= List.length (get_urls evs) <= 2 + 10)%nat.
Proof.
  apply (returned_request_bound Demo.world [("text", PStr "hello")] []
           Demo.hello_trace Demo.hello_timeline eq_refl).
Defined.

Lemma timeline_words_are_clean_witness :
  Forall (fun e => word e <> "" /\ no_space (word e) /\ no_upper (word e))
    (all_frames Demo.hello_timeline).
Proof.
  apply (timeline_words_are_clean Demo.world [("text", PStr "hello")] []
           Demo.hello_trace Demo.hello_timeline eq_refl).
Defined.

Lemma gif_url_injective_witness :
  gif_url Demo.world "hello" <> gif_url Demo.world "world".
Proof.
  apply (gif_url_injective Demo.world "hello" "world"). discriminate.
Defined.

Lemma split_join_spaces_witness :
  split (join_spaces ["hello"; "world"]) = ["hello"; "world"].
Proof.
  apply (split_join_spaces ["hello"; "world"]).
  repeat constructor; try discriminate.
Defined.

Lemma entries_depend_on_their_word_only_witness :
  all_frames Demo.hello_timeline =
  map (entry_pure Demo.world) ["hello"; "world"].
Proof.
  apply (entries_depend_on_their_word_only Demo.world demo_stable_store
           [("text", PStr "hello")] [] Demo.hello_trace Demo.hello_timeline
           eq_refl).
Defined.

Lemma single_letter_fallback_is_futile_witness :
  fst (resolve_word Demo.world "q" []) = fst (get_gif_frames Demo.world "q" [])
  /\ exists evs,
       snd (resolve_word Demo.world "q" []) = [] ++ evs
       /\ get_urls evs = ["http://clips/q.gif"; "http://clips/q.gif"].
Proof.
  destruct (single_letter_fallback_is_futile Demo.world demo_stable_store
              "q" [] eq_refl) as [Hclip Hurls].
  split; [exact Hclip | exact (Hurls eq_refl)].
Defined.

Lemma resolve_word_requests_witness :
  exists evs,
    snd (resolve_word Demo.world "world" []) = [] ++ evs
    /\ get_urls evs =
       ["http://clips/world.gif"; "http://clips/w.gif"; "http://clips/o.gif";
        "http://clips/r.gif"; "http://clips/l.gif"; "http://clips/d.gif"]
    /\ List.length (get_urls evs) = 6%nat.
Proof.
  destruct (resolve_word_requests Demo.world "world" [])
    as (evs & Htr & _ & _ & Hfallback).
  exists evs. split; [exact Htr |]. exact (Hfallback eq_refl).
Defined.

(** * Floats: the binary64 world rounds to nearest *)

Lemma round_half_even_close (x : Q) :
  (Qabs (inject_Z (Float.round_half_even x) - x) <= 1 # 2)%Q.
Proof.
  unfold Float.round_half_even.
  pose proof (Qfloor_le x) as Hlo. pose proof (Qlt_floor x) as Hhi.
  rewrite inject_Z_plus in Hhi. change (inject_Z 1) with 1%Q in Hhi.
  apply Qabs_Qle_condition.
  destruct (x - inject_Z (Qfloor x) ?= 1 # 2)%Q eqn:Hcmp.
  - apply Qeq_alt in Hcmp.
    destruct (Z.even (Qfloor x));
      rewrite ?inject_Z_plus; change (inject_Z 1) with 1%Q; lra.
  - apply Qlt_alt in Hcmp. lra.
  - apply Qgt_alt in Hcmp. rewrite inject_Z_plus.
    change (inject_Z 1) with 1%Q. lra.
Qed.

Lemma pow2_pos (e : Z) : (0 < Float.pow2 e)%Q.
Proof.
  unfold Float.pow2. destruct (0 <=? e) eqn:He.
  - apply Z.leb_le in He. change (inject_Z 0 < inject_Z (2 ^ e))%Q.
    rewrite <- Zlt_Qlt. now apply Z.pow_pos_nonneg.
  - reflexivity.
Qed.

Lemma round_at_error (e : Z) (x r : Q) :
  (0 < x)%Q ->
  Float.round_at e x = Some r ->
  (Qabs (r - x) <= unit_roundoff * x)%Q.
Proof.
  intros Hx. unfold Float.round_at.
  pose proof (pow2_pos e) as Hs. set (s := Float.pow2 e) in *.
  destruct (Qle_bool 4503599627370496 (x / s)) eqn:Hbig; [| discriminate].
  intros Hr. inversion Hr as [Hr']. clear Hr Hr'.
  apply Qle_bool_iff in Hbig.
  pose proof (round_half_even_close (x / s)) as Hm.
  apply Qabs_Qle_condition in Hm.
  set (m := inject_Z (Float.round_half_even (x / s))) in *.
  assert (Hxy : (x == (x / s) * s)%Q) by (field; lra).
  set (y := (x / s)%Q) in *.
  apply Qabs_Qle_condition. unfold unit_roundoff.
  rewrite Hxy at 1 2 3 4. clear Hxy. nra.
Qed.

Lemma round53_pos_error (x : Q) :
  (0 < x)%Q -> (Qabs (Float.round53_pos x - x) <= unit_roundoff * x)%Q.
Proof.
  intros Hx. unfold Float.round53_pos.
  set (k := Z.log2 (Qnum x) - Z.log2 (Zpos (Qden x))).
  destruct (Float.round_at (k - 52) x) as [r |] eqn:H1;
    [exact (round_at_error _ _ _ Hx H1) |].
  destruct (Float.round_at (k - 53) x) as [r |] eqn:H2;
    [exact (round_at_error _ _ _ Hx H2) |].
  setoid_replace (x - x)%Q with 0%Q by ring.
  unfold unit_roundoff. cbn [Qabs Z.abs Qnum Qden]. lra.
Qed.

Lemma float_rounds_to_nearest : rounds_to_nearest Float.world.
Proof.
  intros x. cbn [rnd Float.world]. unfold Float.round53.
  destruct (Qeq_bool x 0) eqn:Hzero.
  - apply Qeq_bool_iff in Hzero. rewrite Hzero.
    unfold unit_roundoff. vm_compute. discriminate.
  - apply Qeq_bool_neq in Hzero.
    destruct (Qle_bool 0 x) eqn:Hsign.
    + apply Qle_bool_iff in Hsign.
      assert (Hx : (0 < x)%Q).
      { apply Qle_lteq in Hsign. destruct Hsign as [Hlt | Heq];
          [exact Hlt | now destruct Hzero]. }
      rewrite (Qabs_pos x Hsign). now apply round53_pos_error.
    + assert (Hx : (0 < - x)%Q).
      { destruct (Qlt_le_dec x 0) as [Hlt | Hge]; [lra |].
        apply Qle_bool_iff in Hge. congruence. }
      pose proof (round53_pos_error (- x) Hx) as Herr.
      assert (Hneg : (x <= 0)%Q) by lra.
      rewrite (Qabs_neg x Hneg).
      setoid_replace (- Float.round53_pos (- x) - x)%Q
        with (- (Float.round53_pos (- x) - - x))%Q by ring.
      now rewrite Qabs_opp.
Qed.

(** * Rounded sums *)

Lemma growth_ge_1 (n : nat) : (1 <= growth n)%Q.
Proof.
  induction n as [| n IH]; cbn [growth]; unfold unit_roundoff in *.
  - lra.
  - nra.
Qed.

Lemma growth_plus (n m : nat) : (growth (n + m) == growth n * growth m)%Q.
Proof.
  induction n as [| n IH]; cbn [growth Nat.add].
  - ring.
  - rewrite IH. ring.
Qed.

Lemma growth_monotone (n m : nat) : (n <= m)%nat -> (growth n <= growth m)%Q.
Proof.
  intros Hle. replace m with (n + (m - n))%nat by lia.
  rewrite growth_plus.
  pose proof (growth_ge_1 n). pose proof (growth_ge_1 (m - n)). nra.
Qed.

Lemma growth_step_linear (g q : Q) :
  (g - 1 <= q * (1 # 4503599627370496))%Q ->
  (q <= 4503599627370495)%Q ->
  ((1 + unit_roundoff) * g - 1 <= (q + 1) * (1 # 4503599627370496))%Q.
Proof.
  unfold unit_roundoff. intros Hg Hq. lra.
Qed.

(** While 2 n u is at most 1, n roundings stretch by at most 1 + 2 n u. *)
Lemma growth_linear (n : nat) :
  Z.of_nat n <= 2 ^ 52 ->
  (growth n - 1 <= inject_Z (Z.of_nat n) * (1 # 4503599627370496))%Q.
Proof.
  induction n as [| n IH]; intros Hn.
  - cbn [growth]. change (inject_Z (Z.of_nat 0)) with 0%Q. lra.
  - cbn [growth]. rewrite Nat2Z.inj_succ in *. unfold Z.succ.
    rewrite inject_Z_plus. change (inject_Z 1) with 1%Q.
    apply growth_step_linear.
    + apply IH. lia.
    + change 4503599627370495%Q with (inject_Z (2 ^ 52 - 1)).
      rewrite <- Zle_Qle. lia.
Qed.

Lemma Qsum_abs_nonneg (l : list Q) : (0 <= Qsum_abs l)%Q.
Proof.
  unfold Qsum_abs. induction l as [| x l IH]; cbn [map Qsum fold_right].
  - lra.
  - fold (Qsum (map Qabs l)). pose proof (Qabs_nonneg x). lra.
Qed.

Lemma Qsum_abs_app (l1 l2 : list Q) :
  (Qsum_abs (l1 ++ l2) == Qsum_abs l1 + Qsum_abs l2)%Q.
Proof.
  unfold Qsum_abs. rewrite map_app. apply Qsum_app.
Qed.

Lemma Qabs_Qsum (l : list Q) : (Qabs (Qsum l) <= Qsum_abs l)%Q.
Proof.
  unfold Qsum_abs. induction l as [| x l IH]; cbn [map Qsum fold_right].
  - vm_compute. discriminate.
  - fold (Qsum (map Qabs l)). fold (Qsum l).
    pose proof (Qabs_triangle x (Qsum l)). lra.
Qed.

Lemma rounded_sum_step (g B a b T E1 E2 E u : Q) :
  (0 <= u -> 1 <= g -> 0 <= B -> 0 <= a -> 0 <= b ->
   T <= a + b + u * (a + b) ->
   E1 <= (g - 1) * (T + B) ->
   E2 <= u * (a + b) ->
   E <= E1 + E2 ->
   E <= ((1 + u) * g - 1) * (a + (b + B)))%Q.
Proof.
  intros Hu Hg HB Ha Hb HT H1 H2 HE.
  assert (H3 : ((T + B) * (g - 1)
                <= (a + b + u * (a + b) + B) * (g - 1))%Q)
    by (apply Qmult_le_compat_r; lra).
  assert (H4 : (0 <= (u * g) * B)%Q)
    by (apply Qmult_le_0_compat; [apply Qmult_le_0_compat |]; lra).
  apply Qle_trans
    with ((a + b + u * (a + b) + B) * (g - 1) + u * (a + b))%Q.
  - lra.
  - apply Qle_minus_iff.
    setoid_replace (((1 + u) * g - 1) * (a + (b + B))
                    + - ((a + b + u * (a + b) + B) * (g - 1) + u * (a + b)))%Q
      with (u * g * B)%Q by ring.
    exact H4.
Qed.

Lemma two_level_step (gm gN D S E1 E2 E : Q) :
  (1 <= gm -> 1 <= gN -> 0 <= D ->
   S <= gN * D ->
   E1 <= (gm - 1) * S ->
   E2 <= (gN - 1) * D ->
   E <= E1 + E2 ->
   E <= (gm * gN - 1) * D)%Q.
Proof.
  intros Hm HN HD HS H1 H2 HE.
  assert (H3 : (S * (gm - 1) <= (gN * D) * (gm - 1))%Q)
    by (apply Qmult_le_compat_r; lra).
  apply Qle_trans with ((gN * D) * (gm - 1) + (gN - 1) * D)%Q.
  - lra.
  - setoid_replace ((gN * D) * (gm - 1) + (gN - 1) * D)%Q
      with ((gm * gN - 1) * D)%Q by ring.
    apply Qle_refl.
Qed.

Section RoundedSums.

Variable w : World.
Hypothesis rnd_nearest : rounds_to_nearest w.

Lemma fadd_error (a b : Q) :
  (Qabs (fadd w a b - (a + b)) <= unit_roundoff * (Qabs a + Qabs b))%Q.
Proof.
  unfold fadd. pose proof (rnd_nearest (a + b)%Q) as Hr.
  pose proof (Qabs_triangle a b). unfold unit_roundoff in *. lra.
Qed.

(** Adding n numbers to [t] one by one: the error is at most
    (1 + u)^n - 1 times the sum of the absolute values. *)
Lemma fold_fadd_error (l : list Q) :
  forall t,
    (Qabs (fold_left (fadd w) l t - (t + Qsum l))
     <= (growth (List.length l) - 1) * (Qabs t + Qsum_abs l))%Q.
Proof.
  induction l as [| x l IH]; intros t; cbn [fold_left List.length growth].
  - change (Qsum []) with 0%Q.
    setoid_replace (t - (t + 0))%Q with 0%Q by ring.
    setoid_replace ((1 - 1) * (Qabs t + Qsum_abs []))%Q with 0%Q by ring.
    apply Qle_refl.
  - change (Qsum (x :: l)) with (x + Qsum l)%Q.
    change (Qsum_abs (x :: l)) with (Qabs x + Qsum_abs l)%Q.
    apply (rounded_sum_step _ _ _ _ (Qabs (fadd w t x))
             (Qabs (fold_left (fadd w) l (fadd w t x)
                    - (fadd w t x + Qsum l)))
             (Qabs (fadd w t x - (t + x)))).
    + unfold unit_roundoff. lra.
    + apply growth_ge_1.
    + apply Qsum_abs_nonneg.
    + apply Qabs_nonneg.
    + apply Qabs_nonneg.
    + pose proof (fadd_error t x) as Hadd.
      setoid_replace (fadd w t x)
        with ((fadd w t x - (t + x)) + (t + x))%Q at 1 by ring.
      pose proof (Qabs_triangle (fadd w t x - (t + x)) (t + x)).
      pose proof (Qabs_triangle t x). lra.
    + apply IH.
    + apply fadd_error.
    + setoid_replace
        (fold_left (fadd w) l (fadd w t x) - (t + (x + Qsum l)))%Q
        with ((fold_left (fadd w) l (fadd w t x) - (fadd w t x + Qsum l))
              + (fadd w t x - (t + x)))%Q by ring.
      apply Qabs_triangle.
Qed.

Lemma py_sum_error (l : list Q) :
  (Qabs (py_sum w l - Qsum l)
   <= (growth (List.length l) - 1) * Qsum_abs l)%Q.
Proof.
  pose proof (fold_fadd_error l 0) as H. unfold py_sum.
  setoid_replace (0 + Qsum l)%Q with (Qsum l) in H by ring.
  change (Qabs 0) with 0%Q in H. lra.
Qed.

(** The sums of the entries, each rounded on its own, against the exact
    sum of all durations. *)
Lemma entry_sums_error (K : nat) (es : list word_entry) :
  Forall (fun e => (List.length (durations e) <= K)%nat) es ->
  (Qabs (Qsum (map (fun e => py_sum w (durations e)) es)
         - Qsum (List.concat (map durations es)))
   <= (growth K - 1) * Qsum_abs (List.concat (map durations es)))%Q
  /\ (Qsum_abs (map (fun e => py_sum w (durations e)) es)
      <= growth K * Qsum_abs (List.concat (map durations es)))%Q.
Proof.
  induction 1 as [| e es Hk _ [IHerr IHabs]];
    cbn [map List.concat].
  - split.
    + change (Qsum []) with 0%Q. change (Qsum_abs []) with 0%Q.
      setoid_replace (0 - 0)%Q with 0%Q by ring.
      setoid_replace ((growth K - 1) * 0)%Q with 0%Q by ring.
      apply Qle_refl.
    + change (Qsum_abs []) with 0%Q.
      setoid_replace (growth K * 0)%Q with 0%Q by ring. apply Qle_refl.
  - change (Qsum (py_sum w (durations e)
                  :: map (fun e => py_sum w (durations e)) es))
      with (py_sum w (durations e)
            + Qsum (map (fun e => py_sum w (durations e)) es))%Q.
    change (Qsum_abs (py_sum w (durations e)
                      :: map (fun e => py_sum w (durations e)) es))
      with (Qabs (py_sum w (durations e))
            + Qsum_abs (map (fun e => py_sum w (durations e)) es))%Q.
    rewrite Qsum_app, Qsum_abs_app.
    pose proof (py_sum_error (durations e)) as He.
    pose proof (Qsum_abs_nonneg (durations e)) as Hde.
    pose proof (Qabs_Qsum (durations e)) as Hsum.
    pose proof (growth_monotone _ _ Hk) as Hmono.
    pose proof (growth_ge_1 (List.length (durations e))) as Hg1.
    assert (He' : (Qabs (py_sum w (durations e) - Qsum (durations e))
                   <= (growth K - 1) * Qsum_abs (durations e))%Q).
    { apply Qle_trans with (1 := He).
      apply Qmult_le_compat_r; lra. }
    set (s := py_sum w (durations e)) in *.
    set (S := Qsum (durations e)) in *.
    set (D := Qsum_abs (durations e)) in *.
    assert (Hs : (Qabs s <= growth K * D)%Q).
    { setoid_replace s with ((s - S) + S)%Q at 1 by ring.
      pose proof (Qabs_triangle (s - S) S). lra. }
    split.
    + setoid_replace
        (s + Qsum (map (fun e => py_sum w (durations e)) es)
         - (S + Qsum (List.concat (map durations es))))%Q
        with ((s - S)
              + (Qsum (map (fun e => py_sum w (durations e)) es)
                 - Qsum (List.concat (map durations es))))%Q by ring.
      eapply Qle_trans; [apply Qabs_triangle |]. lra.
    + lra.
Qed.

Lemma durations_within_concat (es : list word_entry) :
  Forall (fun e => (List.length (durations e)
                    <= List.length (List.concat (map durations es)))%nat) es.
Proof.
  induction es as [| e es IH]; cbn [map List.concat]; constructor.
  - rewrite length_app. lia.
  - eapply Forall_impl; [| exact IH]. cbn beta. intros e' He'.
    rewrite length_app. lia.
Qed.

(** The per-entry sums added up in any order: the total is the exact sum
    of all durations up to (1 + u)^(m + N) - 1 times the sum of their
    absolute values, for m entries and N durations. *)
Lemma reordered_total_error (es : list word_entry) (sums : list Q) :
  Permutation (map (fun e => py_sum w (durations e)) es) sums ->
  (Qabs (fold_left (fadd w) sums 0 - Qsum (List.concat (map durations es)))
   <= (growth (List.length es
               + List.length (List.concat (map durations es))) - 1)
      * Qsum_abs (List.concat (map durations es)))%Q.
Proof.
  intros Hperm.
  destruct (entry_sums_error _ es (durations_within_concat es))
    as [Herr Habs].
  pose proof (fold_fadd_error sums 0) as Hfold.
  rewrite <- (Permutation_length Hperm), length_map in Hfold.
  assert (HQ : (Qsum sums
                == Qsum (map (fun e => py_sum w (durations e)) es))%Q)
    by (symmetry; now apply Qsum_permutation).
  assert (HA : (Qsum_abs sums
                == Qsum_abs (map (fun e => py_sum w (durations e)) es))%Q).
  { unfold Qsum_abs. symmetry. apply Qsum_permutation.
    now apply Permutation_map. }
  rewrite HQ, HA in Hfold. change (Qabs 0) with 0%Q in Hfold.
  rewrite growth_plus.
  apply (two_level_step _ _ _
           (Qsum_abs (map (fun e => py_sum w (durations e)) es))
           (Qabs (fold_left (fadd w) sums 0
                  - Qsum (map (fun e => py_sum w (durations e)) es))%Q)
           (Qabs (Qsum (map (fun e => py_sum w (durations e)) es)
                  - Qsum (List.concat (map durations es)))%Q)).
  - apply growth_ge_1.
  - apply growth_ge_1.
  - apply Qsum_abs_nonneg.
  - exact Habs.
  - setoid_replace (0 + Qsum (map (fun e => py_sum w (durations e)) es))%Q
      with (Qsum (map (fun e => py_sum w (durations e)) es)) in Hfold
      by ring.
    setoid_replace
      (0 + Qsum_abs (map (fun e => py_sum w (durations e)) es))%Q
      with (Qsum_abs (map (fun e => py_sum w (durations e)) es)) in Hfold
      by ring.
    exact Hfold.
  - exact Herr.
  - setoid_replace
      (fold_left (fadd w) sums 0 - Qsum (List.concat (map durations es)))%Q
      with ((fold_left (fadd w) sums 0
             - Qsum (map (fun e => py_sum w (durations e)) es))
            + (Qsum (map (fun e => py_sum w (durations e)) es)
               - Qsum (List.concat (map durations es))))%Q by ring.
    apply Qabs_triangle.
Qed.

End RoundedSums.

Section Tolerance.

Variable w : World.
Hypothesis rnd_nearest : rounds_to_nearest w.

(** C3.  With floats that round to nearest, the total of a returned
    timeline is the sum of the durations of all frames of all entries up to
    a tolerance: (1 + u)^(m + N) - 1 times the sum of their absolute
    values, for m entries, N frames and the unit roundoff u.  Adding the
    per-word sums in any other order gives a total within the same
    tolerance of that sum, hence within twice the tolerance of the total
    returned.  The tolerance is at most (m + N) * 2^-52 times the sum of
    the absolute values. *)
Theorem total_duration_within_tolerance (request_data : dict)
    (tr tr' : trace) (tl : timeline) :
  get_frames_endpoint w request_data tr = (Returned tl, tr') ->
  let ds := List.concat (map durations (all_frames tl)) in
  let n := (List.length (all_frames tl) + List.length ds)%nat in
  let tol := ((growth n - 1) * Qsum_abs ds)%Q in
  (Qabs (total_duration tl - Qsum ds) <= tol)%Q
  /\ (forall sums,
        Permutation
          (map (fun e => py_sum w (durations e)) (all_frames tl)) sums ->
        (Qabs (fold_left (fadd w) sums 0 - Qsum ds) <= tol)%Q
        /\ (Qabs (fold_left (fadd w) sums 0 - total_duration tl)
            <= 2 * tol)%Q)
  /\ (Z.of_nat n <= 2 ^ 52 ->
      (tol <= inject_Z (Z.of_nat n) * (1 # 4503599627370496)
              * Qsum_abs ds)%Q).
Proof.
  intros Hrun ds n tol. apply get_frames_endpoint_returned in Hrun.
  destruct Hrun as (s & _ & _ & _ & _ & Htotal).
  assert (Hsame :
    (Qabs (total_duration tl - Qsum ds) <= tol)%Q).
  { rewrite Htotal.
    apply (reordered_total_error w rnd_nearest (all_frames tl)).
    apply Permutation_refl. }
  split; [exact Hsame |]. split.
  - intros sums Hperm.
    pose proof (reordered_total_error w rnd_nearest (all_frames tl) sums
                  Hperm) as Hother.
    fold ds in Hother. fold n in Hother. fold tol in Hother.
    split; [exact Hother |].
    setoid_replace (fold_left (fadd w) sums 0 - total_duration tl)%Q
      with ((fold_left (fadd w) sums 0 - Qsum ds)
            + - (total_duration tl - Qsum ds))%Q by ring.
    pose proof (Qabs_triangle (fold_left (fadd w) sums 0 - Qsum ds)%Q
                  (- (total_duration tl - Qsum ds))%Q) as Htri.
    rewrite Qabs_opp in Htri. lra.
  - intros Hn. unfold tol. apply Qmult_le_compat_r.
    + now apply growth_linear.
    + apply Qsum_abs_nonneg.
Qed.

End Tolerance.

(** * The width asked of the resize, with binary64 rounding *)

Section ResizeOutcome.

Variable w : World.
Hypothesis rnd_nearest : rounds_to_nearest w.

(** Within the sizes a GIF can have, the float product is so close to
    480*W/H that truncating it gives the floor, unless H divides 480*W:
    then the product may fall just short of the quotient. *)
Lemma new_width_floor (W H : Z) :
  0 <= W <= 65535 -> 0 < H <= 65535 ->
  let new_width :=
    py_int (fmul w (inject_Z 480) (fdiv w (inject_Z W) (inject_Z H))) in
  (480 * W) / H - 1 <= new_width <= (480 * W) / H
  /\ ((480 * W) mod H <> 0 -> new_width = (480 * W) / H).
Proof.
  intros [HW0 HW] [HH0 HH]. cbv zeta.
  destruct (aspect_ratio_bounds W H HW0 HH0) as [Ha0 HaW].
  assert (HWq : (inject_Z W <= 65535)%Q).
  { change 65535%Q with (inject_Z 65535). now rewrite <- Zle_Qle. }
  pose proof (Z.div_mod (480 * W) H ltac:(lia)) as Hdm.
  pose proof (Z.mod_pos_bound (480 * W) H HH0) as Hm.
  set (q := (480 * W) / H) in *. set (m := (480 * W) mod H) in *.
  clearbody q m.
  assert (HHq : (0 < inject_Z H)%Q).
  { change (inject_Z 0 < inject_Z H)%Q. now rewrite <- Zlt_Qlt. }
  assert (Hx : (480 * (inject_Z W / inject_Z H)
                == inject_Z q + inject_Z m / inject_Z H)%Q).
  { assert (Heq : (inject_Z 480 * inject_Z W
                   == inject_Z H * inject_Z q + inject_Z m)%Q).
    { rewrite <- !inject_Z_mult, <- inject_Z_plus. now rewrite Hdm. }
    change (inject_Z 480) with 480%Q in Heq. field_simplify_eq; [| lra].
    rewrite Heq. ring. }
  assert (Hf0 : (0 <= inject_Z m / inject_Z H)%Q).
  { apply Qle_shift_div_l; [exact HHq |]. rewrite Qmult_0_l.
    change (inject_Z 0 <= inject_Z m)%Q. rewrite <- Zle_Qle. lia. }
  assert (Hf1 : (inject_Z m / inject_Z H <= 65534 # 65535)%Q).
  { apply Qle_shift_div_r; [exact HHq |].
    unfold Qle. cbn [Qnum Qden inject_Z Qmult]. lia. }
  assert (Hfpos : m <> 0 -> (1 # 65535 <= inject_Z m / inject_Z H)%Q).
  { intros Hm0. apply Qle_shift_div_l; [exact HHq |].
    unfold Qle. cbn [Qnum Qden inject_Z Qmult]. lia. }
  unfold fmul, fdiv. change (inject_Z 480) with 480%Q.
  set (a := (inject_Z W / inject_Z H)%Q) in *.
  set (f := (inject_Z m / inject_Z H)%Q) in *.
  pose proof (rnd_nearest a) as H1.
  rewrite (Qabs_pos a Ha0) in H1.
  apply Qabs_Qle_condition in H1. destruct H1 as [H1l H1u].
  set (r1 := rnd w a) in *.
  unfold unit_roundoff in *.
  assert (Hy0 : (0 <= 480 * r1)%Q) by lra.
  pose proof (rnd_nearest (480 * r1)%Q) as H2.
  rewrite (Qabs_pos _ Hy0) in H2.
  apply Qabs_Qle_condition in H2. destruct H2 as [H2l H2u].
  set (r2 := rnd w (480 * r1)%Q) in *.
  unfold unit_roundoff in *.
  assert (Hr20 : (0 <= r2)%Q) by lra.
  rewrite (py_int_floor r2 Hr20).
  pose proof (Qfloor_le r2) as Hfl.
  pose proof (Qlt_floor r2) as Hfu.
  rewrite inject_Z_plus in Hfu. change (inject_Z 1) with 1%Q in Hfu.
  assert (Hlo : (inject_Z q - 2 < inject_Z (Qfloor r2))%Q) by lra.
  assert (Hhi : (inject_Z (Qfloor r2) < inject_Z q + 1)%Q) by lra.
  assert (Hlo' : q - 2 < Qfloor r2).
  { rewrite Zlt_Qlt. unfold Z.sub. rewrite inject_Z_plus.
    change (inject_Z (- (2))) with (- (2))%Q. lra. }
  assert (Hhi' : Qfloor r2 < q + 1).
  { rewrite Zlt_Qlt, inject_Z_plus. change (inject_Z 1) with 1%Q. lra. }
  split; [lia |].
  intros Hm0. specialize (Hfpos Hm0).
  assert (Hmid : (inject_Z q - 1 < inject_Z (Qfloor r2))%Q) by lra.
  assert (Hmid' : q - 1 < Qfloor r2).
  { rewrite Zlt_Qlt. unfold Z.sub. rewrite inject_Z_plus.
    change (inject_Z (- (1))) with (- (1))%Q. lra. }
  lia.
Qed.

(** X16.  For a frame within the sizes a GIF can have (W and H at most
    65535, H above 0) and binary64 rounding, the width asked of the resize
    is the floor of 480*W/H whenever H does not divide 480*W, and that
    quotient or one less when it does; [resize_frame] returns what the
    resize to that width and to 480 rows returns, or raises what it
    raises. *)
Theorem resize_frame_width_is_floor (frame : ndarray) :
  0 <= cols frame <= 65535 ->
  0 < rows frame <= 65535 ->
  exists new_width,
    (480 * cols frame) / rows frame - 1 <= new_width
      <= (480 * cols frame) / rows frame
    /\ ((480 * cols frame) mod rows frame <> 0 ->
        new_width = (480 * cols frame) / rows frame)
    /\ resize_frame w frame 480 =
       match Image_resize w (Image_fromarray frame) new_width 480 with
       | inl e => inl e
       | inr resized => inr (np_array resized)
       end.
Proof.
  intros HW HH.
  destruct (new_width_floor (cols frame) (rows frame) HW HH)
    as [Hbounds Hexact].
  eexists. split; [exact Hbounds |]. split; [exact Hexact |].
  unfold resize_frame, bind_exn. cbn [Image_fromarray width height].
  replace (rows frame =? 0) with false by (symmetry; apply Z.eqb_neq; lia).
  reflexivity.
Qed.


End ResizeOutcome.



(** ** The binary64 world at work *)




(** 1/10 is rounded to the double that prints as 0.1. *)
Example float_one_tenth :
  Qred (Float.round53 (1 # 10)) = 3602879701896397 # 36028797018963968.
Proof. vm_compute. reflexivity. Qed.

(** A frame of 49 by 3: the float product 480 * (49 / 3) falls just short
    of 7840 and is truncated to 7839. *)
Example float_resize_49x3 :
  resize_frame Float.world {| rows := 3; cols := 49; data := [] |} 480 =
  inr {| rows := 480; cols := 7839; data := [] |}.
Proof. vm_compute. reflexivity. Qed.

Example float_scenario_hello_world :
  get_frames_endpoint Float.world [("text", PStr "hello")] [] =
  (Returned Float.hello_timeline, Demo.hello_trace).
Proof. vm_compute. reflexivity. Qed.

(** In binary64 the total of the scenario is the double 0.58, which is not
    the exact sum of its seven durations. *)
Example float_total_is_not_exact :
  total_duration Float.hello_timeline = 5224175567749775 # 9007199254740992
  /\ Qeq_bool (total_duration Float.hello_timeline)
       (Qsum (List.concat (map durations (all_frames Float.hello_timeline))))
     = false.
Proof. split; vm_compute; reflexivity. Qed.

Lemma total_duration_within_tolerance_witness :
  (Qabs (total_duration Float.hello_timeline
         - Qsum (List.concat
                   (map durations (all_frames Float.hello_timeline))))
   <= (growth 9 - 1)
      * Qsum_abs (List.concat
                    (map durations (all_frames Float.hello_timeline))))%Q.
Proof.
  apply (proj1 (total_duration_within_tolerance Float.world
                  float_rounds_to_nearest [("text", PStr "hello")] []
                  Demo.hello_trace Float.hello_timeline
                  float_scenario_hello_world)).
Defined.


Lemma resize_frame_width_is_floor_witness :
  exists new_width,
    7839 <= new_width <= 7840
    /\ resize_frame Float.world {| rows := 3; cols := 49; data := [] |} 480 =
       match
         Image_resize Float.world
           (Image_fromarray {| rows := 3; cols := 49; data := [] |})
           new_width 480
       with
       | inl e => inl e
       | inr resized => inr (np_array resized)
       end.
Proof.
  destruct (resize_frame_width_is_floor Float.world float_rounds_to_nearest
              {| rows := 3; cols := 49; data := [] |}
              ltac:(cbn; lia) ltac:(cbn; lia))
    as (new_width & Hbounds & _ & Hrun).
  exists new_width. split; [exact Hbounds | exact Hrun].
Defined.
